(** * kubeval command line: orchestration of a validation run

    A shallow embedding of [main.go]: the root command's [Run] function, the
    result reporter [logResults], the source resolver [aggregateFiles] and
    the early-exit policy [earlyExit], together with the small parts of the
    Go libraries they lean on ([strings.HasSuffix], [filepath.Walk],
    [multierror]).  The external collaborators (the validation engine, the
    file system, standard input) are parameters of the development. *)

From Stdlib Require Import ZArith String Ascii List Bool Lia DecimalString.
From stdpp Require Import prelude strings gmap.

Local Open Scope string_scope.
Local Open Scope list_scope.

(** ** Go values *)

(** A Go [error] is identified with the text its [Error()] method returns. *)
Definition error := string.

(** A Go byte slice; a Rocq string is a sequence of 8-bit characters. *)
Definition bytes := string.

(** [os.FileMode] is a 32-bit mask; [os.ModeDir] and [os.ModeCharDevice] are
    its bits 31 and 21. *)
Definition FileMode := Z.
Definition ModeDir : FileMode := Z.shiftl 1 31.
Definition ModeCharDevice : FileMode := Z.shiftl 1 21.

(** The three methods of [os.FileInfo] that the program calls. *)
Record FileInfo := mkFileInfo {
  Name : string;
  Mode : FileMode;
  IsDir : bool
}.

(** The escapes [\n] and [\t] of Go string literals. *)
Definition nl : string := String (ascii_of_nat 10) "".
Definition tab : string := String (ascii_of_nat 9) "".

(** ** [strings.HasSuffix] *)

(** [len(s) >= len(suffix) && s[len(s)-len(suffix):] == suffix] *)
Definition HasSuffix (s suffix : string) : bool :=
  (String.length suffix <=? String.length s)%nat &&
  String.eqb
    (substring (String.length s - String.length suffix) (String.length suffix) s)
    suffix.

(** ** [multierror]: the error accumulator *)

Module multierror.

(** Modelled from the spec: the AggregateError of the data model, "an
    ordered, append-only collection of independently raised errors"; the
    package [github.com/hashicorp/go-multierror] that implements it is
    not part of the sources.  A nil [*multierror.Error] is [None]. *)
Record Error := mkError { Errors : list error }.

(** Modelled from the spec: appending one independently raised error to
    the (possibly nil) accumulator keeps every earlier error and puts the
    new one last.  The errors appended here come from the file system and
    are never combined errors themselves. *)
Definition Append (e : option Error) (err : error) : option Error :=
  match e with
  | None => Some (mkError [err])
  | Some m => Some (mkError (Errors m ++ [err]))
  end.

(** Modelled from the spec: "zero accumulated errors => no error,
    one or more => a combined value". *)
Definition ErrorOrNil (e : option Error) : option Error :=
  match e with
  | None => None
  | Some m => if (length (Errors m) =? 0)%nat then None else Some m
  end.

Definition decimal (n : nat) : string :=
  NilEmpty.string_of_uint (Nat.to_uint n).

(** [strings.Join] *)
Fixpoint Join (elems : list string) (sep : string) : string :=
  match elems with
  | [] => ""
  | [x] => x
  | x :: rest => x +:+ sep +:+ Join rest sep
  end.

(** Modelled from the spec: the "deterministic combining/rendering
    function" of the combined value; the layout is the package's default
    list format, one bullet per error in accumulation order. *)
Definition ListFormatFunc (es : list error) : string :=
  match es with
  | [e] => "1 error occurred:" +:+ nl +:+ tab +:+ "* " +:+ e +:+ nl +:+ nl
  | _ =>
      decimal (length es) +:+ " errors occurred:" +:+ nl +:+ tab +:+
      Join (map (fun e => "* " +:+ e) es) (nl +:+ tab) +:+ nl +:+ nl
  end.

(** Modelled from the spec: the "textual representation" of the combined
    value, its [Error()] method. *)
Definition Error_text (m : Error) : string := ListFormatFunc (Errors m).

End multierror.

(** ** [filepath.Walk] *)

Module filepath.

(** One call that [Walk] makes to its callback: either an entry of the
    tree with its [FileInfo] and a nil error, or a path that could not be
    examined together with the error met there. *)
Inductive WalkVisit :=
| Entry (path : string) (info : FileInfo)
| Failed (path : string) (err : error).

(** [Walk] calls the callback on the entries of the tree in order and
    stops at the first call that returns an error, which it returns.  The
    list [visits] is the sequence of calls the tree gives rise to as long
    as the callback keeps returning nil; the callback works on the
    variables it captures, here a state of type [S].  The callback of
    this program never returns [filepath.SkipDir]. *)
Fixpoint WalkOver {S : Type} (visits : list WalkVisit)
    (walkFn : WalkVisit -> S -> S * option error) (s : S) : S * option error :=
  match visits with
  | [] => (s, None)
  | v :: rest =>
      match walkFn v s with
      | (s', Some err) => (s', Some err)
      | (s', None) => WalkOver rest walkFn s'
      end
  end.

End filepath.

(** ** The validation engine's records *)

(** [kubeval.ValidationResult]; an error description is identified with its
    printed form. *)
Record ValidationResult := mkValidationResult {
  FileName : string;
  Kind : string;
  ValidatedAgainstSchema : bool;
  Errors : list string
}.

(** The fields of [kubeval.Config] that the command reads or writes. *)
Record Config := mkConfig {
  ExitOnError : bool;
  cfgFileName : string
}.

(** ** The world the command runs in *)

(** A reference to a schema cache: Go maps are reference values, so the
    command holds a reference and the cache itself lives in the heap. *)
Definition CacheRef := nat.

Inductive Level := LError | LWarn | LInfo | LSuccess.

(** What a run does that can be observed from outside: the lines it hands
    to the [log] package, and its calls to the collaborators. *)
Inductive Event :=
| Log (level : Level) (args : list string)
| EvWalk (directory : string) (err : option error)
| EvNewSchemaCache (c : CacheRef)
| EvReadFile (path : string) (r : bytes + error)
| EvValidate (input : bytes) (c : CacheRef) (cfg : Config)
    (r : list ValidationResult + error).

(** How a computation ends: it returns a value, or the process is gone
    through [os.Exit]. *)
Inductive Res (A : Type) :=
| Ret (a : A)
| Exit (code : Z).
Arguments Ret {A} a.
Arguments Exit {A} code.

Section Command.

(** The contents of a schema cache are the engine's business. *)
Context {SchemaCache : Type}.

(** Everything the run is given and does not change. *)
Record Env := mkEnv {
  (** [runtime.GOOS] *)
  GOOS : string;
  (** [os.Stdin.Stat()]: the file info, or the error *)
  Stdin_Stat : FileInfo + error;
  (** the lines [bufio.Scanner] yields on standard input *)
  Stdin_lines : list string;
  (** the flag variable [forceColor] *)
  forceColor : bool;
  (** the flag variable [directories] *)
  directories : list string;
  (** [viper.GetString("filename")] *)
  viper_filename : string;
  (** [filepath.Abs], whose error the command drops *)
  Abs : string -> string;
  (** [ioutil.ReadFile] on the file system of the run *)
  ReadFile : string -> bytes + error;
  (** the calls [filepath.Walk] makes below a root on that file system *)
  WalkVisits : string -> list filepath.WalkVisit;
  (** the cache [kubeval.NewSchemaCache] builds *)
  newCache : SchemaCache;
  (** [kubeval.ValidateWithCache]: the results or the invocation error,
      and the contents it leaves in the cache *)
  Validate : bytes -> SchemaCache -> Config ->
             (list ValidationResult + error) * SchemaCache
}.

(** The state a run changes: the global [config], [color.NoColor], the
    heap of schema caches, and what has been observed so far. *)
Record World := mkWorld {
  config : Config;
  NoColor : bool;
  heap : gmap CacheRef SchemaCache;
  trace : list Event
}.

Definition emit (e : Event) (w : World) : World :=
  mkWorld (config w) (NoColor w) (heap w) (trace w ++ [e]).

(** *** The monad of the command: state, and exit *)

Definition M (A : Type) : Type := World -> Res A * World.

Definition ret {A} (a : A) : M A := fun w => (Ret a, w).

Definition bind {A B} (m : M A) (k : A -> M B) : M B :=
  fun w =>
    match m w with
    | (Ret a, w') => k a w'
    | (Exit code, w') => (Exit code, w')
    end.

Notation "x <- m ;; k" := (bind m (fun x => k))
  (at level 100, m at next level, right associativity).
Notation "m ;;; k" := (bind m (fun _ => k))
  (at level 100, right associativity).

(** [os.Exit] *)
Definition os_Exit {A} (code : Z) : M A := fun w => (Exit code, w).

Definition log_Error (args : list string) : M unit :=
  fun w => (Ret tt, emit (Log LError args) w).
Definition log_Warn (args : list string) : M unit :=
  fun w => (Ret tt, emit (Log LWarn args) w).
Definition log_Info (args : list string) : M unit :=
  fun w => (Ret tt, emit (Log LInfo args) w).
Definition log_Success (args : list string) : M unit :=
  fun w => (Ret tt, emit (Log LSuccess args) w).

(** [config.FileName = name] *)
Definition set_FileName (name : string) : M unit :=
  fun w =>
    (Ret tt,
     mkWorld (mkConfig (ExitOnError (config w)) name)
             (NoColor w) (heap w) (trace w)).

(** [color.NoColor = b] *)
Definition set_NoColor (b : bool) : M unit :=
  fun w => (Ret tt, mkWorld (config w) b (heap w) (trace w)).

Variable env : Env.

(** [kubeval.NewSchemaCache()]: a new cache at a reference not in use. *)
Definition NewSchemaCache : M CacheRef :=
  fun w =>
    let c := fresh (dom (heap w)) in
    (Ret c,
     emit (EvNewSchemaCache c)
       (mkWorld (config w) (NoColor w) (<[c := newCache env]> (heap w))
                (trace w))).

(** The contents behind a reference; one that was never handed out reads
    as a new cache. *)
Definition deref (w : World) (c : CacheRef) : SchemaCache :=
  default (newCache env) (heap w !! c).

(** [kubeval.ValidateWithCache(input, schemaCache, config)]: the engine
    reads and updates the cache behind the reference. *)
Definition ValidateWithCache (input : bytes) (schemaCache : CacheRef)
    : M (list ValidationResult + error) :=
  fun w =>
    let '(r, contents) :=
      Validate env input (deref w schemaCache) (config w) in
    (Ret r,
     emit (EvValidate input schemaCache (config w) r)
       (mkWorld (config w) (NoColor w)
                (<[schemaCache := contents]> (heap w)) (trace w))).

(** [ioutil.ReadFile(path)] *)
Definition ioutil_ReadFile (path : string) : M (bytes + error) :=
  fun w => (Ret (ReadFile env path),
            emit (EvReadFile path (ReadFile env path)) w).

(** *** [logResults] *)

(** [for _, desc := range result.Errors { log.Info("--->", desc) }] *)
Fixpoint logDescs (descs : list string) : M unit :=
  match descs with
  | [] => ret tt
  | desc :: rest => log_Info ["--->"; desc] ;;; logDescs rest
  end.

Fixpoint logResults (results : list ValidationResult) (success : bool)
    : M bool :=
  match results with
  | [] => ret success
  | result :: rest =>
      if (0 <? length (Errors result))%nat then
        log_Warn ["The file"; FileName result; "contains an invalid";
                  Kind result] ;;;
        logDescs (Errors result) ;;;
        logResults rest false
      else if String.eqb (Kind result) "" then
        log_Success ["The file"; FileName result;
                     "contains an empty YAML document"] ;;;
        logResults rest success
      else if negb (ValidatedAgainstSchema result) then
        log_Warn ["The file"; FileName result; "containing a"; Kind result;
                  "was not validated against a schema"] ;;;
        logResults rest success
      else
        log_Success ["The file"; FileName result; "contains a valid";
                     Kind result] ;;;
        logResults rest success
  end.

(** *** [aggregateFiles] *)

(** The callback handed to [filepath.Walk]; the captured variable is
    [files]. *)
Definition walkFn (v : filepath.WalkVisit) (files : list string)
    : list string * option error :=
  match v with
  | filepath.Failed path err => (files, Some err)
  | filepath.Entry path info =>
      if negb (IsDir info) && HasSuffix (Name info) ".yaml"
      then (files ++ [path], None)
      else (files, None)
  end.

(** [filepath.Walk(directory, walkFn)] *)
Definition Walk (directory : string) (files : list string)
    : M (list string * option error) :=
  fun w =>
    let r := filepath.WalkOver (WalkVisits env directory) walkFn files in
    (Ret r, emit (EvWalk directory r.2) w).

(** [for _, directory := range directories { ... }] *)
Fixpoint aggregateDirs (dirs : list string) (files : list string)
    (allErrors : option multierror.Error)
    : M (list string * option multierror.Error) :=
  match dirs with
  | [] => ret (files, allErrors)
  | directory :: rest =>
      r <- Walk directory files ;;
      let '(files', err) := r in
      let allErrors' :=
        match err with
        | Some e => multierror.Append allErrors e
        | None => allErrors
        end in
      aggregateDirs rest files' allErrors'
  end.

Definition aggregateFiles (args : list string)
    : M (list string * option multierror.Error) :=
  let files := args in
  r <- aggregateDirs (directories env) files None ;;
  let '(files, allErrors) := r in
  ret (files, multierror.ErrorOrNil allErrors).

(** *** [earlyExit] *)

Definition earlyExit : M unit :=
  fun w => if ExitOnError (config w) then (Exit 1%Z, w) else (Ret tt, w).

(** *** [RootCmd.Run] *)

(** [for _, fileName := range files { ... }] with the running flag
    [success]. *)
Fixpoint Run_files (schemaCache : CacheRef) (files : list string)
    (success : bool) : M bool :=
  match files with
  | [] => ret success
  | fileName :: rest =>
      let filePath := Abs env fileName in
      r <- ioutil_ReadFile filePath ;;
      match r with
      | inr err =>
          log_Error ["Could not open file"; fileName] ;;;
          earlyExit ;;;
          Run_files schemaCache rest false
      | inl fileContents =>
          set_FileName fileName ;;;
          r <- ValidateWithCache fileContents schemaCache ;;
          match r with
          | inr err =>
              log_Error [err] ;;;
              earlyExit ;;;
              Run_files schemaCache rest false
          | inl results =>
              success <- logResults results success ;;
              Run_files schemaCache rest success
          end
      end
  end.

(** [buffer.WriteString(scanner.Text() + "\n")] over the lines of
    standard input. *)
Fixpoint bufferLines (lines : list string) : bytes :=
  match lines with
  | [] => ""
  | line :: rest => (line +:+ nl) +:+ bufferLines rest
  end.

(** The test that sends the run to standard input:
    [(len(args) < 1 || args[0] == "-") && !windowsStdinIssue &&
     ((stat.Mode() & os.ModeCharDevice) == 0)].
    [stat] is nil only when [windowsStdinIssue] holds, and then the last
    conjunct is not evaluated. *)
Definition readsStdin (args : list string) (windowsStdinIssue : bool)
    (stat : option FileInfo) : bool :=
  ((length args <? 1)%nat ||
   match args with a :: _ => String.eqb a "-" | [] => false end) &&
  negb windowsStdinIssue &&
  match stat with
  | Some st => (Z.land (Mode st) ModeCharDevice =? 0)%Z
  | None => false
  end.

(** Lines 42 to 106: everything up to the final test of [success]. *)
Definition Run_body (args : list string) : M bool :=
  let success := true in
  windowsStdinIssue <-
    match Stdin_Stat env with
    | inr err =>
        if negb (String.eqb (GOOS env) "windows")
        then log_Error [err] ;;; os_Exit 1%Z
        else ret true
    | inl _ => ret false
    end ;;
  let stat := match Stdin_Stat env with inl st => Some st | inr _ => None end in
  (if forceColor env then set_NoColor false else ret tt) ;;;
  if readsStdin args windowsStdinIssue stat then
    let buffer := bufferLines (Stdin_lines env) in
    schemaCache <- NewSchemaCache ;;
    set_FileName (viper_filename env) ;;;
    r <- ValidateWithCache buffer schemaCache ;;
    match r with
    | inr err => log_Error [err] ;;; os_Exit 1%Z
    | inl results => logResults results success
    end
  else
    (if (length args <? 1)%nat && (length (directories env) <? 1)%nat
     then
       log_Error ["You must pass at least one file as an argument, or at least one directory to the directories flag"] ;;;
       os_Exit 1%Z
     else ret tt) ;;;
    schemaCache <- NewSchemaCache ;;
    r <- aggregateFiles args ;;
    let '(files, err) := r in
    success <-
      match err with
      | Some e => log_Error [multierror.Error_text e] ;;; ret false
      | None => ret success
      end ;;
    Run_files schemaCache files success.

(** [RootCmd.Run]: lines 107 to 109 turn the flag into the exit. *)
Definition Run (args : list string) : M unit :=
  success <- Run_body args ;;
  if negb success then os_Exit 1%Z else ret tt.

(** The status the process ends with: [os.Exit]'s argument, or 0 when
    [Run] returns and [main] with it. *)
Definition exit_status {A} (r : Res A) : Z :=
  match r with
  | Ret _ => 0%Z
  | Exit code => code
  end.

End Command.

(** ** [Execute] and [main] *)

(** What cobra's [RootCmd.Execute] makes of the command line: the flags
    cannot be parsed and it returns the error; it answers [--help] or
    [--version] itself; or it calls the command's [Run] with the
    positional arguments.  In the last two cases it returns nil. *)
Inductive Dispatch :=
| DispatchFails (err : error)
| DispatchAnswers
| DispatchRuns (args : list string).

(** [RootCmd.Execute()] *)
Definition RootCmd_Execute {SchemaCache : Type} (env : @Env SchemaCache)
    (d : Dispatch) : M (option error) :=
  match d with
  | DispatchFails err => ret (Some err)
  | DispatchAnswers => ret None
  | DispatchRuns args => bind (Run env args) (fun _ => ret None)
  end.

(** [Execute]: a failure of the dispatch is logged and ends the process
    with [os.Exit(-1)]. *)
Definition Execute {SchemaCache : Type} (env : @Env SchemaCache)
    (d : Dispatch) : M unit :=
  bind (RootCmd_Execute env d) (fun err =>
    match err with
    | Some e => bind (log_Error [e]) (fun _ => os_Exit (-1)%Z)
    | None => ret tt
    end).

Definition main {SchemaCache : Type} (env : @Env SchemaCache)
    (d : Dispatch) : M unit :=
  Execute env d.

(** ** Vocabulary of the specification *)

(** The four outcome categories of the reporter. *)
Inductive Category := INVALID | EMPTY_DOCUMENT | SKIPPED_NO_SCHEMA | VALID.

(** The classification in the words of the specification: the first rule
    that applies, in the order errors, empty kind, not validated, valid. *)
Definition classify (r : ValidationResult) : Category :=
  match Errors r with
  | _ :: _ => INVALID
  | [] =>
      if decide (Kind r = "") then EMPTY_DOCUMENT
      else if ValidatedAgainstSchema r then VALID
      else SKIPPED_NO_SCHEMA
  end.

(** What the reporter emits for a result of a given category. *)
Definition report (c : Category) (r : ValidationResult) : list Event :=
  match c with
  | INVALID =>
      Log LWarn ["The file"; FileName r; "contains an invalid"; Kind r]
      :: map (fun desc => Log LInfo ["--->"; desc]) (Errors r)
  | EMPTY_DOCUMENT =>
      [Log LSuccess ["The file"; FileName r; "contains an empty YAML document"]]
  | SKIPPED_NO_SCHEMA =>
      [Log LWarn ["The file"; FileName r; "containing a"; Kind r;
                  "was not validated against a schema"]]
  | VALID =>
      [Log LSuccess ["The file"; FileName r; "contains a valid"; Kind r]]
  end.

(** What a category does to the running success flag. *)
Definition flag_after (c : Category) (success : bool) : bool :=
  match c with
  | INVALID => false
  | _ => success
  end.

(** A result without error descriptions. *)
Definition noErrors (r : ValidationResult) : bool :=
  (length (Errors r) =? 0)%nat.

(** The world after some more events have been observed. *)
Definition emits {SchemaCache : Type} (es : list Event)
    (w : @World SchemaCache) : World :=
  mkWorld (config w) (NoColor w) (heap w) (trace w ++ es).

(** *** Vocabulary for the directory walk *)

(** The calls of a walk up to, and without, the first one that carries an
    error. *)
Fixpoint before_failure (visits : list filepath.WalkVisit)
    : list filepath.WalkVisit :=
  match visits with
  | filepath.Entry path info :: rest =>
      filepath.Entry path info :: before_failure rest
  | _ => []
  end.

(** The error of the first call that carries one. *)
Fixpoint first_failure (visits : list filepath.WalkVisit) : option error :=
  match visits with
  | [] => None
  | filepath.Entry _ _ :: rest => first_failure rest
  | filepath.Failed _ err :: _ => Some err
  end.

(** The paths the callback keeps among some calls, in order. *)
Definition yamlFiles (visits : list filepath.WalkVisit) : list string :=
  omap (fun v =>
          match v with
          | filepath.Entry path info =>
              if negb (IsDir info) && HasSuffix (Name info) ".yaml"
              then Some path else None
          | filepath.Failed _ _ => None
          end) visits.

(** A file that is not a directory and whose name is some stem followed by
    the five characters [.yaml]. *)
Definition yaml_file (info : FileInfo) : Prop :=
  IsDir info = false /\ exists stem, Name info = stem +:+ ".yaml".

(** What the walk of one directory contributes, as a function of that
    directory alone: the files kept, the error it ends with, and the event
    it leaves in the trace. *)
Definition walk_files {SchemaCache : Type} (env : @Env SchemaCache)
    (directory : string) : list string :=
  yamlFiles (before_failure (WalkVisits env directory)).

Definition walk_error {SchemaCache : Type} (env : @Env SchemaCache)
    (directory : string) : option error :=
  first_failure (WalkVisits env directory).

Definition walk_event {SchemaCache : Type} (env : @Env SchemaCache)
    (directory : string) : Event :=
  EvWalk directory (walk_error env directory).

(** *** Vocabulary for the error accumulator *)

(** The accumulator after the errors of a list have been appended one by
    one. *)
Definition accumulate (acc : option multierror.Error) (errs : list error)
    : option multierror.Error :=
  fold_left multierror.Append errs acc.

(** The messages occur in the text one after the other, each in full and
    each in a place of its own. *)
Fixpoint occur_in_order (msgs : list string) (text : string) : Prop :=
  match msgs with
  | [] => True
  | msg :: rest =>
      exists before after,
        text = before +:+ msg +:+ after /\ occur_in_order rest after
  end.

(** The combined error of a list of accumulated errors: none for the empty
    list, otherwise one value that holds the list as it is. *)
Definition combined (errs : list error) : option multierror.Error :=
  match errs with
  | [] => None
  | _ :: _ => Some (multierror.mkError errs)
  end.

(** *** Vocabulary for the run *)

(** The events a computation has added to the trace. *)
Definition events_since {SchemaCache : Type} (w w' : @World SchemaCache)
    : list Event :=
  drop (length (trace w)) (trace w').

(** The four kinds of event that lower the verdict. *)
Definition schema_errors (e : Event) : bool :=
  match e with
  | EvValidate _ _ _ (inl results) => negb (forallb noErrors results)
  | _ => false
  end.

Definition read_failure (e : Event) : bool :=
  match e with
  | EvReadFile _ (inr _) => true
  | _ => false
  end.

Definition invocation_failure (e : Event) : bool :=
  match e with
  | EvValidate _ _ _ (inr _) => true
  | _ => false
  end.

Definition walk_failure (e : Event) : bool :=
  match e with
  | EvWalk _ (Some _) => true
  | _ => false
  end.

Definition failure (e : Event) : bool :=
  schema_errors e || read_failure e || invocation_failure e || walk_failure e.

(** The paths handed to [ioutil.ReadFile], in order. *)
Definition read_paths (evs : list Event) : list string :=
  omap (fun e => match e with EvReadFile path _ => Some path | _ => None end)
       evs.

(** The calls of the engine, in order: the file name in [config] at the
    call, and the bytes handed over. *)
Definition validations (evs : list Event) : list (string * bytes) :=
  omap (fun e =>
          match e with
          | EvValidate input _ cfg _ => Some (cfgFileName cfg, input)
          | _ => None
          end) evs.

(** The files of a list that can be read, with what they hold. *)
Definition readable {SchemaCache : Type} (env : @Env SchemaCache)
    (files : list string) : list (string * bytes) :=
  omap (fun f =>
          match ReadFile env (Abs env f) with
          | inl input => Some (f, input)
          | inr _ => None
          end) files.

(** The world once [forceColor] has been looked at. *)
Definition colored {SchemaCache : Type} (env : @Env SchemaCache)
    (w : @World SchemaCache) : World :=
  if forceColor env
  then mkWorld (config w) false (heap w) (trace w)
  else w.

(** The reference [NewSchemaCache] hands out in a world, and the world it
    leaves. *)
Definition fresh_ref {SchemaCache : Type} (w : @World SchemaCache)
    : CacheRef :=
  fresh (dom (heap w)).

Definition allocated {SchemaCache : Type} (env : @Env SchemaCache)
    (w : @World SchemaCache) : World :=
  mkWorld (config w) (NoColor w)
          (<[fresh_ref w := newCache env]> (heap w))
          (trace w ++ [EvNewSchemaCache (fresh_ref w)]).

(** The world after a call of the engine for file [name]: the file name is
    in [config], the cache behind [c] holds what the engine left, and the
    events of the step have been observed. *)
Definition validated {SchemaCache : Type} (w : @World SchemaCache)
    (c : CacheRef) (name : string) (contents : SchemaCache)
    (evs : list Event) : World :=
  mkWorld (mkConfig (ExitOnError (config w)) name) (NoColor w)
          (<[c := contents]> (heap w)) (trace w ++ evs).

(** How the run starts, as lines 44 to 80 decide it: refused because
    standard input cannot be examined, reading standard input, refused for
    want of any file or directory, or going through the files. *)
Inductive Route := RefusedStdin | FromStdin | RefusedUsage | FromFiles.

Definition route {SchemaCache : Type} (env : @Env SchemaCache)
    (args : list string) : Route :=
  let usage :=
    if (length args <? 1)%nat && (length (directories env) <? 1)%nat
    then RefusedUsage else FromFiles in
  match Stdin_Stat env with
  | inr _ =>
      if negb (String.eqb (GOOS env) "windows") then RefusedStdin
      else if readsStdin args true None then FromStdin else usage
  | inl st =>
      if readsStdin args false (Some st) then FromStdin else usage
  end.

(** The usage message of line 78. *)
Definition usage_message : string :=
  "You must pass at least one file as an argument, or at least one directory to the directories flag".

(** The reports of a list of results, in order. *)
Definition reports (results : list ValidationResult) : list Event :=
  concat (map (fun r => report (classify r) r) results).

(** Every call of the engine among the events sees the cache as the call
    before it left it, starting from [contents]. *)
Fixpoint threaded {SchemaCache : Type} (env : @Env SchemaCache)
    (contents : SchemaCache) (evs : list Event) : Prop :=
  match evs with
  | [] => True
  | EvValidate input _ cfg r :: rest =>
      r = (Validate env input contents cfg).1 /\
      threaded env (Validate env input contents cfg).2 rest
  | _ :: rest => threaded env contents rest
  end.

(** An event that has to do with a schema cache does so with the one behind
    [c]: no cache is made, and the engine is handed [c]. *)
Definition uses_cache (c : CacheRef) (e : Event) : Prop :=
  match e with
  | EvNewSchemaCache _ => False
  | EvValidate _ c' _ _ => c' = c
  | _ => True
  end.

(** A line of the log. *)
Definition is_log (e : Event) : Prop :=
  match e with
  | Log _ _ => True
  | _ => False
  end.

(** An event that touches no source and no cache: a line of the log or the
    walk of a directory. *)
Definition is_quiet (e : Event) : Prop :=
  match e with
  | Log _ _ | EvWalk _ _ => True
  | _ => False
  end.

(** The loop over the files as a relation between the world before, the
    events added, the outcome and the world after; one rule for each way a
    turn of the loop can go. *)
Inductive FilesRun {SchemaCache : Type} (env : @Env SchemaCache)
    (c : CacheRef)
    : list string -> bool -> @World SchemaCache -> list Event ->
      Res bool -> @World SchemaCache -> Prop :=
| FR_done success w :
    FilesRun env c [] success w [] (Ret success) w
| FR_unreadable_exit f rest success w e :
    ReadFile env (Abs env f) = inr e ->
    ExitOnError (config w) = true ->
    let step := [EvReadFile (Abs env f) (inr e);
                 Log LError ["Could not open file"; f]] in
    FilesRun env c (f :: rest) success w step (Exit 1%Z) (emits step w)
| FR_unreadable_next f rest success w e evs res w' :
    ReadFile env (Abs env f) = inr e ->
    ExitOnError (config w) = false ->
    let step := [EvReadFile (Abs env f) (inr e);
                 Log LError ["Could not open file"; f]] in
    FilesRun env c rest false (emits step w) evs res w' ->
    FilesRun env c (f :: rest) success w (step ++ evs) res w'
| FR_invocation_exit f rest success w input e contents :
    ReadFile env (Abs env f) = inl input ->
    let cfg := mkConfig (ExitOnError (config w)) f in
    Validate env input (deref env w c) cfg = (inr e, contents) ->
    ExitOnError (config w) = true ->
    let step := [EvReadFile (Abs env f) (inl input);
                 EvValidate input c cfg (inr e); Log LError [e]] in
    FilesRun env c (f :: rest) success w step (Exit 1%Z)
      (validated w c f contents step)
| FR_invocation_next f rest success w input e contents evs res w' :
    ReadFile env (Abs env f) = inl input ->
    let cfg := mkConfig (ExitOnError (config w)) f in
    Validate env input (deref env w c) cfg = (inr e, contents) ->
    ExitOnError (config w) = false ->
    let step := [EvReadFile (Abs env f) (inl input);
                 EvValidate input c cfg (inr e); Log LError [e]] in
    FilesRun env c rest false (validated w c f contents step) evs res w' ->
    FilesRun env c (f :: rest) success w (step ++ evs) res w'
| FR_validated f rest success w input results contents evs res w' :
    ReadFile env (Abs env f) = inl input ->
    let cfg := mkConfig (ExitOnError (config w)) f in
    Validate env input (deref env w c) cfg = (inl results, contents) ->
    let step := [EvReadFile (Abs env f) (inl input);
                 EvValidate input c cfg (inl results)] ++ reports results in
    FilesRun env c rest (success && forallb noErrors results)
      (validated w c f contents step) evs res w' ->
    FilesRun env c (f :: rest) success w (step ++ evs) res w'.

(** The verdict rule as the specification states it, with its three
    causes: when the run reaches the final test, the verdict is false
    exactly when a document had schema errors, a source could not be read,
    or a call of the engine failed. *)
Definition claimed_verdict_rule {SchemaCache : Type}
    (env : @Env SchemaCache) (args : list string) (w : @World SchemaCache)
    : Prop :=
  forall verdict w',
    Run_body env args w = (Ret verdict, w') ->
    (verdict = false <->
     existsb schema_errors (events_since w w') = true \/
     existsb read_failure (events_since w w') = true \/
     existsb invocation_failure (events_since w w') = true).

(** The number of schema caches made among some events. *)
Fixpoint new_caches (evs : list Event) : nat :=
  match evs with
  | [] => 0
  | EvNewSchemaCache _ :: rest => S (new_caches rest)
  | _ :: rest => new_caches rest
  end.

(** The cache rule as the specification states it: whatever the run, one
    schema cache is made in it. *)
Definition claimed_one_cache {SchemaCache : Type}
    (env : @Env SchemaCache) (args : list string) (w : @World SchemaCache)
    : Prop :=
  new_caches (events_since w (Run env args w).2) = 1.

(** *** Vocabulary for what a run shows and leaves out *)

(** The directories handed to [filepath.Walk], in order. *)
Definition walked (evs : list Event) : list string :=
  omap (fun e => match e with EvWalk d _ => Some d | _ => None end) evs.

(** The error descriptions shown on lines of level Info, in order. *)
Definition described (evs : list Event) : list string :=
  omap (fun e =>
          match e with
          | Log LInfo [_; desc] => Some desc
          | _ => None
          end) evs.

(** The results the command goes on with, call after call: those of the
    calls of the engine that came back without an error.  What a call
    hands back together with an error the command drops at lines 71 to 74
    and 98 to 103, and it is no part of the events. *)
Definition accepted (evs : list Event) : list ValidationResult :=
  concat (omap (fun e =>
                  match e with
                  | EvValidate _ _ _ (inl results) => Some results
                  | _ => None
                  end) evs).

(** The lines of level Warn or Success: one summary for a result. *)
Definition summaries (evs : list Event) : list Event :=
  omap (fun e => match e with
                 | Log LWarn _ | Log LSuccess _ => Some e
                 | _ => None
                 end) evs.

(** A failure that the early-exit policy looks at. *)
Definition stops (e : Event) : bool := read_failure e || invocation_failure e.

(** After the first read or invocation failure among the events comes the
    one line that reports it, and nothing more. *)
Fixpoint halted_at_failure (evs : list Event) : Prop :=
  match evs with
  | [] => True
  | e :: rest =>
      if stops e then exists args, rest = [Log LError args]
      else halted_at_failure rest
  end.

(** A line as [bufio.Scanner] yields it holds no line feed. *)
Fixpoint no_newline (s : string) : Prop :=
  match s with
  | EmptyString => True
  | String c rest => c <> ascii_of_nat 10 /\ no_newline rest
  end.

(** Two environments that give the same answers to everything the run asks
    once it goes through files. *)
Definition same_files_side {SchemaCache : Type}
    (env1 env2 : @Env SchemaCache) : Prop :=
  forceColor env1 = forceColor env2 /\
  directories env1 = directories env2 /\
  Abs env1 = Abs env2 /\
  ReadFile env1 = ReadFile env2 /\
  WalkVisits env1 = WalkVisits env2 /\
  newCache env1 = newCache env2 /\
  Validate env1 = Validate env2.

(** Two environments that give the same answers to everything the run asks
    when it reads standard input. *)
Definition same_stdin_side {SchemaCache : Type}
    (env1 env2 : @Env SchemaCache) : Prop :=
  Stdin_Stat env1 = Stdin_Stat env2 /\
  Stdin_lines env1 = Stdin_lines env2 /\
  forceColor env1 = forceColor env2 /\
  viper_filename env1 = viper_filename env2 /\
  newCache env1 = newCache env2 /\
  Validate env1 = Validate env2.

(** *** Vocabulary for the files a run gets to *)



(** *** Vocabulary for the kinds of file *)

(** The bits of [os.FileMode] that tell the kind of an entry, and
    [FileMode.IsRegular]: none of them is set. *)
Definition ModeSymlink : FileMode := Z.shiftl 1 27.
Definition ModeDevice : FileMode := Z.shiftl 1 26.
Definition ModeNamedPipe : FileMode := Z.shiftl 1 25.
Definition ModeSocket : FileMode := Z.shiftl 1 24.
Definition ModeIrregular : FileMode := Z.shiftl 1 19.

Definition ModeType : FileMode :=
  Z.lor ModeDir
    (Z.lor ModeSymlink
       (Z.lor ModeNamedPipe
          (Z.lor ModeSocket
             (Z.lor ModeDevice (Z.lor ModeCharDevice ModeIrregular))))).

Definition IsRegular (m : FileMode) : bool := (Z.land m ModeType =? 0)%Z.

(** The rule of the walk as the specification states it: the callback
    keeps an entry exactly when it is a regular file whose name ends in
    [.yaml]. *)
Definition claimed_collects_regular (path : string) (info : FileInfo)
    : Prop :=
  walkFn (filepath.Entry path info) [] = ([path], None) <->
  IsRegular (Mode info) = true /\ exists stem, Name info = stem +:+ ".yaml".

(** A symbolic link as [filepath.Walk], which does not follow links, hands
    it to the callback. *)
Definition symlink (name : string) : FileInfo :=
  mkFileInfo name (Z.lor ModeSymlink 511) false.

(** ** A small world to run the command in *)

Module Example.

(** Standard input is a terminal. *)
Definition terminal : FileInfo := mkFileInfo "stdin" ModeCharDevice false.

(** Standard input is a pipe. *)
Definition pipe : FileInfo := mkFileInfo "stdin" (Z.shiftl 1 25) false.

Definition dir (name : string) : FileInfo := mkFileInfo name ModeDir true.
Definition file (name : string) : FileInfo := mkFileInfo name 0%Z false.

(** The tree: [d] holds [a.yaml], a subdirectory that cannot be opened
    and [z.yaml]; [e] holds [b.yaml] and [pod.yml]; [missing] is not
    there. *)
Definition tree (root : string) : list filepath.WalkVisit :=
  if String.eqb root "d" then
    [filepath.Entry "d" (dir "d");
     filepath.Entry "d/a.yaml" (file "a.yaml");
     filepath.Failed "d/sub" "open d/sub: permission denied";
     filepath.Entry "d/z.yaml" (file "z.yaml")]
  else if String.eqb root "e" then
    [filepath.Entry "e" (dir "e");
     filepath.Entry "e/b.yaml" (file "b.yaml");
     filepath.Entry "e/pod.yml" (file "pod.yml")]
  else if String.eqb root "missing" then
    [filepath.Failed "missing" "lstat missing: no such file or directory"]
  else [].

(** The files that can be read, and what they hold. *)
Definition contents (path : string) : bytes + error :=
  if String.eqb path "a.yaml" || String.eqb path "d/a.yaml"
     || String.eqb path "e/b.yaml" || String.eqb path "d/z.yaml"
  then inl "kind: Pod"
  else if String.eqb path "bad.yaml" then inl "kind: Deployment"
  else if String.eqb path "broken.yaml" then inl "{"
  else inr ("open " +:+ path +:+ ": no such file or directory").

(** A stand-in for the engine: a pod is valid, a deployment has one
    error, an open brace cannot be parsed, anything else is an empty
    document.  The cache counts the schemas it has been asked for. *)
Definition engine (input : bytes) (cache : nat) (cfg : Config)
    : (list ValidationResult + error) * nat :=
  if String.eqb input "kind: Pod" then
    (inl [mkValidationResult (cfgFileName cfg) "Pod" true []], S cache)
  else if String.eqb input "kind: Deployment" then
    (inl [mkValidationResult (cfgFileName cfg) "Deployment" true
            ["spec.replicas: Invalid type"]], S cache)
  else if String.eqb input "{" then
    (inr "yaml: did not find expected node content", cache)
  else
    (inl [mkValidationResult (cfgFileName cfg) "" false []], cache).

(** The run is started on Linux with the given standard input and
    [--directories]. *)
Definition env (stat : FileInfo + error) (lines : list string)
    (dirs : list string) : @Env nat :=
  mkEnv "linux" stat lines false dirs "stdin" (fun path => path)
        contents tree 0 engine.

(** The world at the start: nothing observed, no cache on the heap. *)
Definition start (exitOnError : bool) : @World nat :=
  mkWorld (mkConfig exitOnError "stdin") false ∅ [].

End Example.

(** A world in which every directory is there and empty: the walk of a
    root visits the root and nothing else. *)
Definition empty_dirs_env (dirs : list string) : @Env nat :=
  mkEnv "linux" (inl Example.terminal) [] false dirs "stdin"
        (fun path => path) Example.contents
        (fun root => [filepath.Entry root (Example.dir root)])
        0 Example.engine.

(** The example world on windows, where the probe of standard input
    fails. *)
Definition windows_env (dirs : list string) : @Env nat :=
  mkEnv "windows" (inr "GetFileType: The handle is invalid.") [] false dirs
        "stdin" (fun path => path) Example.contents Example.tree
        0 Example.engine.

(** ** The monad and the trace *)

Section TraceFacts.

Context {SchemaCache : Type}.
Implicit Types (w : @World SchemaCache) (es : list Event).

Lemma emits_nil w : emits [] w = w.
Proof. destruct w; unfold emits; simpl. by rewrite app_nil_r. Qed.

Lemma emit_emits e w : emit e w = emits [e] w.
Proof. reflexivity. Qed.

Lemma emits_emits es1 es2 w : emits es2 (emits es1 w) = emits (es1 ++ es2) w.
Proof. unfold emits; simpl. by rewrite app_assoc. Qed.

Lemma bind_ret {A B} (a : A) (k : A -> M B) w : bind (ret a) k w = k a w.
Proof. reflexivity. Qed.

Lemma bind_Ret {A B} (m : M A) (k : A -> M B) w a w' :
  m w = (Ret a, w') -> bind m k w = k a w'.
Proof. unfold bind. by intros ->. Qed.

Lemma bind_Exit {A B} (m : M A) (k : A -> M B) w code w' :
  m w = (Exit code, w') -> bind m k w = (Exit code, w').
Proof. unfold bind. by intros ->. Qed.

End TraceFacts.

(** ** The reporter *)

Section Reporter.

Context {SchemaCache : Type}.
Implicit Types (w : @World SchemaCache).

Lemma logDescs_emits descs w :
  logDescs descs w =
  (Ret tt, emits (map (fun desc => Log LInfo ["--->"; desc]) descs) w).
Proof.
  revert w. induction descs as [|desc rest IH]; intros w; simpl.
  - by rewrite emits_nil.
  - unfold bind, log_Info. rewrite IH, emit_emits, emits_emits. reflexivity.
Qed.

(** One turn of the loop of [logResults]: the report of the category, and
    the rest of the list with the flag the category leaves. *)
Lemma logResults_cons r rest success w :
  logResults (r :: rest) success w =
  logResults rest (flag_after (classify r) success)
             (emits (report (classify r) r) w).
Proof.
  unfold classify. simpl logResults.
  destruct (Errors r) as [|d ds] eqn:HE; cbn [length Nat.ltb Nat.leb].
  - destruct (decide (Kind r = "")) as [HK|HK].
    + rewrite HK. reflexivity.
    + apply String.eqb_neq in HK. rewrite HK.
      destruct (ValidatedAgainstSchema r); reflexivity.
  - unfold bind at 1. unfold log_Warn. unfold bind at 1.
    rewrite logDescs_emits, emit_emits, emits_emits.
    unfold report, flag_after. rewrite HE. reflexivity.
Qed.

(** The whole loop: it always returns, with the flag lowered by any result
    that has errors, after the reports of all results in order. *)
Lemma logResults_spec results success w :
  logResults results success w =
  (Ret (success && forallb noErrors results),
   emits (concat (map (fun r => report (classify r) r) results)) w).
Proof.
  revert success w.
  induction results as [|r rest IH]; intros success w.
  - simpl. by rewrite emits_nil, andb_true_r.
  - rewrite logResults_cons, IH, emits_emits. simpl.
    f_equal. f_equal. unfold classify, noErrors.
    destruct (Errors r) as [|d ds]; simpl.
    + by destruct (decide (Kind r = "")), (ValidatedAgainstSchema r).
    + by rewrite andb_false_r.
Qed.

End Reporter.

Section ReporterProperties.

Context {SchemaCache : Type}.
Implicit Types (w : @World SchemaCache).

Lemma noErrors_true r : noErrors r = true <-> Errors r = [].
Proof.
  unfold noErrors. destruct (Errors r); simpl; split; congruence.
Qed.

Lemma logResults_app rs1 rs2 success w :
  logResults (rs1 ++ rs2) success w =
  bind (logResults rs1 success) (fun s => logResults rs2 s) w.
Proof.
  revert success w. induction rs1 as [|r rs1 IH]; intros success w.
  - reflexivity.
  - simpl app. rewrite logResults_cons, IH.
    unfold bind. by rewrite logResults_cons.
Qed.


(** C9: the success flag only ever goes down.  [logResults] returns the
    incoming flag conjoined with "no result has errors": it returns true
    only if the flag came in true and every result is free of errors, a
    flag that came in false (or was lowered by an earlier result) stays
    false whatever results follow, and an empty list hands the flag back
    unchanged, and the world with it. *)
Theorem logResults_flag_monotone (results : list ValidationResult)
    (success : bool) w :
  (logResults results success w).1 =
    Ret (success && forallb noErrors results) /\
  ((logResults results success w).1 = Ret true ->
     success = true /\ Forall (fun r => Errors r = []) results) /\
  (logResults results false w).1 = Ret false /\
  (forall earlier, (logResults earlier success w).1 = Ret false ->
     (logResults (earlier ++ results) success w).1 = Ret false) /\
  logResults [] success w = (Ret success, w).
Proof.
  split; [by rewrite logResults_spec|].
  split.
  { rewrite logResults_spec. simpl. intros [= H].
    apply andb_true_iff in H as [-> H]. split; [done|].
    apply Forall_forall. intros r Hr. apply noErrors_true.
    rewrite forallb_forall in H. apply H. by apply list_elem_of_In. }
  split; [by rewrite logResults_spec|].
  split; [|reflexivity].
  intros earlier. rewrite logResults_app. unfold bind.
  rewrite (logResults_spec earlier). simpl. intros [= ->].
  by rewrite logResults_spec.
Qed.

End ReporterProperties.

(** ** Strings *)

Section StringFacts.

Implicit Types (s p q : string).

Lemma append_cons c p q : String c p +:+ q = String c (p +:+ q).
Proof. reflexivity. Qed.

Lemma append_nil_l q : "" +:+ q = q.
Proof. reflexivity. Qed.

Lemma append_assoc p q s : (p +:+ q) +:+ s = p +:+ (q +:+ s).
Proof.
  induction p as [|c p IH]; [done|]. by rewrite !append_cons, IH.
Qed.

Lemma length_append p q :
  String.length (p +:+ q) = String.length p + String.length q.
Proof.
  induction p as [|c p IH]; [done|]. rewrite append_cons. simpl. by rewrite IH.
Qed.

Lemma substring_all s : substring 0 (String.length s) s = s.
Proof. induction s as [|c s IH]; simpl; [done|by rewrite IH]. Qed.

Lemma substring_skip p q :
  substring (String.length p) (String.length q) (p +:+ q) = q.
Proof.
  induction p as [|c p IH]; [apply substring_all|].
  rewrite append_cons. simpl. apply IH.
Qed.

Lemma substring_split s n :
  n <= String.length s ->
  s = substring 0 n s +:+ substring n (String.length s - n) s.
Proof.
  revert n. induction s as [|c s IH]; intros n Hn.
  - destruct n; [reflexivity|simpl in Hn; lia].
  - destruct n as [|n].
    + simpl. by rewrite substring_all.
    + simpl in Hn. simpl. rewrite append_cons. f_equal. apply IH. lia.
Qed.

Lemma append_inj_2 p1 p2 s1 s2 :
  String.length s1 = String.length s2 ->
  p1 +:+ s1 = p2 +:+ s2 -> s1 = s2.
Proof.
  revert p2. induction p1 as [|c p1 IH]; intros [|d p2] Hlen Heq;
    rewrite ?append_cons, ?append_nil_l in Heq.
  - done.
  - apply (f_equal String.length) in Heq. simpl in Heq.
    rewrite length_append in Heq. lia.
  - apply (f_equal String.length) in Heq. simpl in Heq.
    rewrite length_append in Heq. lia.
  - injection Heq as _ Heq. by apply (IH p2).
Qed.

(** [HasSuffix] is the literal test: the string is some stem followed by
    exactly the characters of the suffix. *)
Lemma HasSuffix_spec s suffix :
  HasSuffix s suffix = true <-> exists stem, s = stem +:+ suffix.
Proof.
  unfold HasSuffix. rewrite andb_true_iff, Nat.leb_le, String.eqb_eq. split.
  - intros [Hlen Hsub].
    exists (substring 0 (String.length s - String.length suffix) s).
    pose proof (substring_split s (String.length s - String.length suffix))
      as Hs.
    replace (String.length s - (String.length s - String.length suffix))
      with (String.length suffix) in Hs by lia.
    rewrite Hsub in Hs. apply Hs. lia.
  - intros [stem ->]. rewrite length_append. split; [lia|].
    replace (String.length stem + String.length suffix - String.length suffix)
      with (String.length stem) by lia.
    apply substring_skip.
Qed.

(** A name that ends in [.yml] does not end in [.yaml]. *)
Lemma yml_not_yaml stem : HasSuffix (stem +:+ ".yml") ".yaml" = false.
Proof.
  apply not_true_iff_false. intros [stem' H]%HasSuffix_spec.
  change (stem' +:+ ".yaml") with (stem' +:+ "." +:+ "yaml") in H.
  rewrite <- append_assoc in H.
  by apply append_inj_2 in H.
Qed.

End StringFacts.

(** ** The error accumulator *)

Section Accumulator.

Implicit Types (errs : list error) (msgs : list string).

Lemma accumulate_Some l errs :
  accumulate (Some (multierror.mkError l)) errs =
  Some (multierror.mkError (l ++ errs)).
Proof.
  revert l. induction errs as [|e errs IH]; intros l.
  - simpl. by rewrite app_nil_r.
  - change (accumulate (Some (multierror.mkError l)) (e :: errs))
      with (accumulate (Some (multierror.mkError (l ++ [e]))) errs).
    rewrite IH. by rewrite <- app_assoc.
Qed.

Lemma accumulate_app acc errs1 errs2 :
  accumulate acc (errs1 ++ errs2) = accumulate (accumulate acc errs1) errs2.
Proof. apply fold_left_app. Qed.

Lemma ErrorOrNil_accumulate errs :
  multierror.ErrorOrNil (accumulate None errs) = combined errs.
Proof.
  destruct errs as [|e errs]; [reflexivity|].
  change (accumulate None (e :: errs))
    with (accumulate (Some (multierror.mkError [e])) errs).
  rewrite accumulate_Some. reflexivity.
Qed.

Lemma occur_in_order_prefix msgs p text :
  occur_in_order msgs text -> occur_in_order msgs (p +:+ text).
Proof.
  destruct msgs as [|msg rest]; [done|].
  intros (before & after & -> & Hrest).
  exists (p +:+ before), after. split; [|done].
  by rewrite append_assoc.
Qed.

Lemma occur_in_order_bullets errs sep tail :
  occur_in_order errs
    (multierror.Join (map (fun e => "* " +:+ e) errs) sep +:+ tail).
Proof.
  induction errs as [|e errs IH]; [done|].
  destruct errs as [|e' errs].
  - exists "* ", tail. split; [|done].
    simpl. by rewrite append_assoc.
  - exists "* ", (sep +:+ multierror.Join
                     (map (fun e => "* " +:+ e) (e' :: errs)) sep +:+ tail).
    split.
    + change (map (fun e => "* " +:+ e) (e :: e' :: errs))
        with (("* " +:+ e) :: map (fun e => "* " +:+ e) (e' :: errs)).
      change (multierror.Join (?x :: ?y)) with (multierror.Join (x :: y)).
      simpl multierror.Join. by rewrite !append_assoc.
    + by apply occur_in_order_prefix.
Qed.

(** The text of a combined error shows every message it holds, whole and
    in the order of accumulation. *)
Lemma ListFormatFunc_occur errs :
  errs <> [] -> occur_in_order errs (multierror.ListFormatFunc errs).
Proof.
  intros Hne. unfold multierror.ListFormatFunc.
  destruct errs as [|e [|e' errs]]; [done| |].
  - exists ("1 error occurred:" +:+ nl +:+ tab +:+ "* "),
      (nl +:+ nl).
    split; [|done]. by rewrite !append_assoc.
  - do 4 apply occur_in_order_prefix.
    apply occur_in_order_bullets.
Qed.

End Accumulator.

(** ** The source resolver *)

Section Resolver.

Context {SchemaCache : Type} (env : @Env SchemaCache).
Implicit Types (w : @World SchemaCache) (files : list string)
  (visits : list filepath.WalkVisit).

Lemma WalkOver_walkFn visits files :
  filepath.WalkOver visits walkFn files =
  (files ++ yamlFiles (before_failure visits), first_failure visits).
Proof.
  revert files. induction visits as [|[path info|path err] rest IH];
    intros files; simpl.
  - by rewrite app_nil_r.
  - unfold yamlFiles in *. simpl.
    destruct (negb (IsDir info) && HasSuffix (Name info) ".yaml"); simpl.
    + rewrite IH. by rewrite <- app_assoc.
    + apply IH.
  - by rewrite app_nil_r.
Qed.

Lemma Walk_spec directory files w :
  Walk env directory files w =
  (Ret (files ++ walk_files env directory, walk_error env directory),
   emits [walk_event env directory] w).
Proof. unfold Walk. by rewrite WalkOver_walkFn. Qed.

Lemma elem_of_yamlFiles path visits :
  path ∈ yamlFiles visits <->
  exists info, filepath.Entry path info ∈ visits /\ yaml_file info.
Proof.
  unfold yamlFiles, yaml_file. rewrite list_elem_of_omap. split.
  - intros ([p info|p err] & Hin & Hv); [|done].
    destruct (IsDir info) eqn:Hdir; [done|]. simpl in Hv.
    destruct (HasSuffix (Name info) ".yaml") eqn:Hsuf; [|done].
    injection Hv as ->. exists info.
    by rewrite <- HasSuffix_spec.
  - intros (info & Hin & Hdir & Hsuf%HasSuffix_spec).
    exists (filepath.Entry path info). split; [done|].
    by rewrite Hdir, Hsuf.
Qed.

Lemma before_failure_all visits :
  first_failure visits = None -> before_failure visits = visits.
Proof.
  induction visits as [|[path info|path err] rest IH]; simpl; [done| |done].
  intros H. by rewrite IH.
Qed.

Lemma before_failure_sub v visits :
  v ∈ before_failure visits -> v ∈ visits.
Proof.
  induction visits as [|[path info|path err] rest IH]; simpl;
    [done| |by intros ?%elem_of_nil].
  intros [->|Hv]%elem_of_cons; [by left|right; by apply IH].
Qed.

Lemma elem_of_concat_map_inv {A B} (g : A -> list B) (l : list A) y :
  y ∈ concat (map g l) -> exists x, x ∈ l /\ y ∈ g x.
Proof.
  induction l as [|a l IH]; simpl; [by intros ?%elem_of_nil|].
  intros [Hy|Hy]%elem_of_app.
  - exists a. split; [by left|done].
  - destruct (IH Hy) as (x & Hx & Hy'). exists x. split; [by right|done].
Qed.

Lemma before_failure_split before path err after :
  Forall (fun v => exists p info, v = filepath.Entry p info) before ->
  before_failure (before ++ filepath.Failed path err :: after) = before /\
  first_failure (before ++ filepath.Failed path err :: after) = Some err.
Proof.
  induction 1 as [|v before (p & info & ->) _ [IH1 IH2]]; simpl; [done|].
  by rewrite IH1, IH2.
Qed.

Lemma before_failure_app before after :
  Forall (fun v => exists p info, v = filepath.Entry p info) before ->
  before_failure (before ++ after) = before ++ before_failure after /\
  first_failure (before ++ after) = first_failure after.
Proof.
  induction 1 as [|v before (p & info & ->) _ [IH1 IH2]]; simpl; [done|].
  by rewrite IH1, IH2.
Qed.

Lemma yamlFiles_app visits1 visits2 :
  yamlFiles (visits1 ++ visits2) = yamlFiles visits1 ++ yamlFiles visits2.
Proof. apply omap_app. Qed.

Lemma aggregateDirs_cons directory dirs files acc w :
  aggregateDirs env (directory :: dirs) files acc w =
  aggregateDirs env dirs (files ++ walk_files env directory)
    (accumulate acc (option_list (walk_error env directory)))
    (emits [walk_event env directory] w).
Proof.
  simpl. unfold bind. rewrite Walk_spec.
  by destruct (walk_error env directory).
Qed.

Lemma aggregateDirs_spec dirs files acc w :
  aggregateDirs env dirs files acc w =
  (Ret (files ++ concat (map (walk_files env) dirs),
        accumulate acc (omap (walk_error env) dirs)),
   emits (map (walk_event env) dirs) w).
Proof.
  revert files acc w. induction dirs as [|d dirs IH]; intros files acc w.
  - simpl. by rewrite app_nil_r, emits_nil.
  - rewrite aggregateDirs_cons, IH, emits_emits. simpl.
    rewrite <- app_assoc. do 3 f_equal.
    destruct (walk_error env d); reflexivity.
Qed.

Lemma aggregateFiles_spec args w :
  aggregateFiles env args w =
  (Ret (args ++ concat (map (walk_files env) (directories env)),
        combined (omap (walk_error env) (directories env))),
   emits (map (walk_event env) (directories env)) w).
Proof.
  unfold aggregateFiles, bind. rewrite aggregateDirs_spec.
  unfold ret. by rewrite ErrorOrNil_accumulate.
Qed.

End Resolver.

Section ResolverProperties.

Context {SchemaCache : Type} (env : @Env SchemaCache).
Implicit Types (w : @World SchemaCache) (files : list string).

(** C5, as the code has it: the walk of a directory adds to the file list
    exactly the paths of the entries it visits that are not directories
    and whose name is a stem followed by the literal [.yaml], in the order
    of the visit (all entries of the tree when the walk meets no error).
    The callback asks whether the entry is a directory and nothing else
    about its kind: a regular file is kept, and so is a symbolic link, a
    named pipe or a device with such a name.  An entry whose name ends in
    [.yml] is never added, a directory is never added, and the test is
    sensitive to case.  In the list that [aggregateFiles] returns,
    whatever is not one of the arguments comes from such an entry, whose
    name does not end in [.yml]. *)
Theorem Walk_collects_yaml (directory : string) files w :
  Walk env directory files w =
    (Ret (files ++ walk_files env directory, walk_error env directory),
     emits [walk_event env directory] w) /\
  (forall path,
     path ∈ walk_files env directory <->
     exists info,
       filepath.Entry path info ∈ before_failure (WalkVisits env directory)
       /\ yaml_file info) /\
  (walk_error env directory = None ->
   forall path,
     path ∈ walk_files env directory <->
     exists info,
       filepath.Entry path info ∈ WalkVisits env directory /\
       yaml_file info) /\
  (forall path info stem,
     Name info = stem +:+ ".yml" ->
     ~ yaml_file info /\
     walkFn (filepath.Entry path info) files = (files, None)) /\
  (forall path info,
     IsDir info = true ->
     walkFn (filepath.Entry path info) files = (files, None)) /\
  (forall path info,
     IsDir info = false ->
     (exists stem, Name info = stem +:+ ".yaml") ->
     walkFn (filepath.Entry path info) files = (files ++ [path], None)) /\
  (forall args resolved err f,
     (aggregateFiles env args w).1 = Ret (resolved, err) ->
     f ∈ resolved ->
     f ∈ args \/
     exists d info,
       d ∈ directories env /\
       filepath.Entry f info ∈ WalkVisits env d /\
       yaml_file info /\
       forall stem, Name info <> stem +:+ ".yml") /\
  HasSuffix "pod.yaml" ".yaml" = true /\
  HasSuffix "pod.yml" ".yaml" = false /\
  HasSuffix "pod.YAML" ".yaml" = false.
Proof.
  split; [apply Walk_spec|].
  split; [intros path; apply elem_of_yamlFiles|].
  split.
  { intros Hnone path. unfold walk_files.
    rewrite before_failure_all by done. apply elem_of_yamlFiles. }
  split.
  { intros path info stem Hname.
    assert (Hsuf : HasSuffix (Name info) ".yaml" = false)
      by (rewrite Hname; apply yml_not_yaml).
    split.
    - intros [_ Hy%HasSuffix_spec]. congruence.
    - simpl. by rewrite Hsuf, andb_false_r. }
  split; [intros path info Hdir; simpl; by rewrite Hdir|].
  split.
  { intros path info Hdir Hsuf%HasSuffix_spec. simpl.
    by rewrite Hdir, Hsuf. }
  split; [|done].
  intros args resolved err f. rewrite aggregateFiles_spec.
  intros [= <- _] [Hf|Hf]%elem_of_app; [by left|right].
  apply elem_of_concat_map_inv in Hf as (d & Hd & Hf).
  apply elem_of_yamlFiles in Hf as (info & Hin & Hyaml).
  exists d, info. split; [done|]. split; [by apply before_failure_sub|].
  split; [done|].
  intros stem Hname. destruct Hyaml as [_ Hsuf%HasSuffix_spec].
  by rewrite Hname, yml_not_yaml in Hsuf.
Qed.

(** C10: when the walk of a directory meets its first error, the walk of
    that directory is over: the files kept before the error stay in the
    list, no entry that comes after the error is looked at (the same
    entries without the error would have been looked at, and the
    [.yaml] files among them added), the error goes to the accumulator,
    and the directories that follow are walked all the same. *)
Theorem Walk_stops_at_first_error (directory : string)
    (before after : list filepath.WalkVisit) (path : string) (err : error)
    (dirs : list string) files (acc : option multierror.Error) w :
  WalkVisits env directory = before ++ filepath.Failed path err :: after ->
  Forall (fun v => exists p info, v = filepath.Entry p info) before ->
  Walk env directory files w =
    (Ret (files ++ yamlFiles before, Some err),
     emits [EvWalk directory (Some err)] w) /\
  filepath.WalkOver (before ++ after) walkFn files =
    (files ++ yamlFiles before ++ yamlFiles (before_failure after),
     first_failure after) /\
  aggregateDirs env (directory :: dirs) files acc w =
    (Ret (files ++ yamlFiles before ++ concat (map (walk_files env) dirs),
          accumulate acc (err :: omap (walk_error env) dirs)),
     emits (EvWalk directory (Some err) :: map (walk_event env) dirs) w).
Proof.
  intros Hvisits Hbefore.
  destruct (before_failure_split before path err after Hbefore) as [Hb Hf].
  assert (Hfiles : walk_files env directory = yamlFiles before)
    by (unfold walk_files; by rewrite Hvisits, Hb).
  assert (Herr : walk_error env directory = Some err)
    by (unfold walk_error; by rewrite Hvisits, Hf).
  split; [|split].
  - rewrite Walk_spec. unfold walk_event. by rewrite Hfiles, Herr.
  - rewrite WalkOver_walkFn.
    destruct (before_failure_app before after Hbefore) as [-> ->].
    by rewrite yamlFiles_app.
  - rewrite aggregateDirs_cons, aggregateDirs_spec, emits_emits.
    unfold walk_event at 1. rewrite Hfiles, Herr.
    rewrite <- app_assoc. do 2 f_equal.
Qed.

(** C6: with no error accumulated the accumulator returns no error; with
    one or more it returns one combined error that holds the accumulated
    errors as they came, none dropped, none merged, none moved, and whose
    text shows every message in full, one after the other in that order;
    the error [aggregateFiles] returns is the accumulator's value for the
    errors of the walks that failed, in the order of the directories. *)
Theorem accumulator_keeps_every_error (errs : list error)
    (args : list string) w :
  (multierror.ErrorOrNil (accumulate None errs) = None <-> errs = []) /\
  (forall e rest,
     errs = e :: rest ->
     exists m,
       multierror.ErrorOrNil (accumulate None errs) = Some m /\
       multierror.Errors m = errs /\
       occur_in_order errs (multierror.Error_text m)) /\
  exists files,
    (aggregateFiles env args w).1 =
    Ret (files,
         multierror.ErrorOrNil
           (accumulate None (omap (walk_error env) (directories env)))).
Proof.
  split; [|split].
  - rewrite ErrorOrNil_accumulate. by destruct errs.
  - intros e rest ->. rewrite ErrorOrNil_accumulate.
    eexists. split; [reflexivity|]. split; [reflexivity|].
    by apply ListFormatFunc_occur.
  - eexists. rewrite aggregateFiles_spec, ErrorOrNil_accumulate.
    reflexivity.
Qed.

End ResolverProperties.

(** The statement of C10 in the example tree: below [d] the walk keeps
    [d/a.yaml], stops at the subdirectory it cannot open and never sees
    [d/z.yaml]; the directory [e] is walked after it. *)
Lemma Walk_stops_at_first_error_witness :
  let env := Example.env (inl Example.terminal) [] ["d"; "e"] in
  let before := [filepath.Entry "d" (Example.dir "d");
                 filepath.Entry "d/a.yaml" (Example.file "a.yaml")] in
  let after := [filepath.Entry "d/z.yaml" (Example.file "z.yaml")] in
  let err := "open d/sub: permission denied" in
  Walk env "d" [] (Example.start false) =
    (Ret ([] ++ yamlFiles before, Some err),
     emits [EvWalk "d" (Some err)] (Example.start false)) /\
  filepath.WalkOver (before ++ after) walkFn [] =
    ([] ++ yamlFiles before ++ yamlFiles (before_failure after),
     first_failure after) /\
  aggregateDirs env ["d"; "e"] [] None (Example.start false) =
    (Ret ([] ++ yamlFiles before ++ concat (map (walk_files env) ["e"]),
          accumulate None (err :: omap (walk_error env) ["e"])),
     emits (EvWalk "d" (Some err) :: map (walk_event env) ["e"])
       (Example.start false)).
Proof.
  intros env before after err.
  apply (Walk_stops_at_first_error env "d" before after "d/sub" err ["e"] []
           None (Example.start false)).
  - reflexivity.
  - repeat constructor; eauto.
Defined.

(** ** The orchestrator *)

Section Orchestrator.

Context {SchemaCache : Type} (env : @Env SchemaCache).
Implicit Types (w : @World SchemaCache) (files : list string)
  (c : CacheRef) (evs : list Event).

(** One turn of the loop over the files, case by case. *)
Lemma Run_files_cons c f rest success w :
  Run_files env c (f :: rest) success w =
  match ReadFile env (Abs env f) with
  | inr e =>
      let w1 := emits [EvReadFile (Abs env f) (inr e);
                       Log LError ["Could not open file"; f]] w in
      if ExitOnError (config w) then (Exit 1%Z, w1)
      else Run_files env c rest false w1
  | inl input =>
      let cfg := mkConfig (ExitOnError (config w)) f in
      let read := EvReadFile (Abs env f) (inl input) in
      match Validate env input (deref env w c) cfg with
      | (inr e, contents) =>
          let w1 := validated w c f contents
                      [read; EvValidate input c cfg (inr e); Log LError [e]] in
          if ExitOnError (config w) then (Exit 1%Z, w1)
          else Run_files env c rest false w1
      | (inl results, contents) =>
          Run_files env c rest (success && forallb noErrors results)
            (validated w c f contents
               ([read; EvValidate input c cfg (inl results)]
                ++ reports results))
      end
  end.
Proof.
  simpl Run_files. unfold bind at 1. unfold ioutil_ReadFile.
  destruct (ReadFile env (Abs env f)) as [input|e].
  - unfold bind at 1. unfold set_FileName. unfold bind at 1.
    unfold ValidateWithCache, deref. simpl.
    destruct (Validate env input (default (newCache env) (heap w !! c))
                (mkConfig (ExitOnError (config w)) f))
      as [[results|e] contents].
    + unfold bind. rewrite logResults_spec. unfold emit, emits, validated.
      simpl. by rewrite <- !app_assoc.
    + unfold bind, log_Error, earlyExit, emit, validated. simpl.
      destruct (ExitOnError (config w)); by rewrite <- !app_assoc.
  - unfold bind, log_Error, earlyExit, emit, emits. simpl.
    destruct (ExitOnError (config w)); by rewrite <- !app_assoc.
Qed.

(** The start of the run, route by route. *)
Lemma Run_body_RefusedStdin args w :
  route env args = RefusedStdin ->
  exists err,
    Stdin_Stat env = inr err /\
    Run_body env args w = (Exit 1%Z, emits [Log LError [err]] w).
Proof.
  unfold route, Run_body.
  destruct (Stdin_Stat env) as [st|err].
  - destruct (readsStdin args false (Some st)); [done|].
    by destruct ((length args <? 1)%nat && (length (directories env) <? 1)%nat).
  - destruct (negb (String.eqb (GOOS env) "windows")).
    + intros _. by exists err.
    + destruct (readsStdin args true None); [done|].
      by destruct ((length args <? 1)%nat
                   && (length (directories env) <? 1)%nat).
Qed.

Lemma readsStdin_windows args : readsStdin args true None = false.
Proof. unfold readsStdin. by rewrite andb_false_r. Qed.

Lemma Run_body_RefusedUsage args w :
  route env args = RefusedUsage ->
  args = [] /\ directories env = [] /\
  Run_body env args w =
    (Exit 1%Z, emits [Log LError [usage_message]] (colored env w)).
Proof.
  unfold route, Run_body, colored. intros Hroute.
  assert (Husage : (length args <? 1)%nat
                   && (length (directories env) <? 1)%nat = true).
  { destruct ((length args <? 1)%nat && (length (directories env) <? 1)%nat);
      [done|].
    destruct (Stdin_Stat env) as [st|err].
    - by destruct (readsStdin args false (Some st)).
    - destruct (negb (String.eqb (GOOS env) "windows")); [done|].
      by destruct (readsStdin args true None). }
  split; [by destruct args|]. split; [by destruct args, (directories env)|].
  destruct (Stdin_Stat env) as [st|err].
  - destruct (readsStdin args false (Some st)) eqn:Hr; [done|].
    unfold bind, ret; simpl. rewrite Hr, Husage.
    by destruct (forceColor env).
  - destruct (negb (String.eqb (GOOS env) "windows")); [done|].
    rewrite readsStdin_windows in *.
    unfold bind, ret; simpl. rewrite readsStdin_windows, Husage.
    by destruct (forceColor env).
Qed.

Lemma colored_config w : config (colored env w) = config w.
Proof. unfold colored. by destruct (forceColor env). Qed.

Lemma colored_trace w : trace (colored env w) = trace w.
Proof. unfold colored. by destruct (forceColor env). Qed.

Lemma colored_heap w : heap (colored env w) = heap w.
Proof. unfold colored. by destruct (forceColor env). Qed.

Lemma deref_allocated w :
  deref env (allocated env w) (fresh_ref w) = newCache env.
Proof. unfold deref, allocated. simpl. by rewrite lookup_insert_eq. Qed.

Lemma bind_forceColor {B} (k : M B) w :
  bind (if forceColor env then set_NoColor false else ret tt) (fun _ => k) w =
  k (colored env w).
Proof.
  unfold colored, bind, set_NoColor, ret.
  destruct (forceColor env); [reflexivity|by destruct w].
Qed.

(** Lines 81 to 105, from a world [w0] on. *)
Lemma through_files args w0 :
  bind (NewSchemaCache env) (fun schemaCache =>
    bind (aggregateFiles env args) (fun r =>
      let '(files, err) := r in
      bind (match err with
            | Some e => bind (log_Error [multierror.Error_text e])
                          (fun _ => ret false)
            | None => ret true
            end)
        (fun success => Run_files env schemaCache files success))) w0 =
  match combined (omap (walk_error env) (directories env)) with
  | Some m =>
      Run_files env (fresh_ref w0)
        (args ++ concat (map (walk_files env) (directories env))) false
        (emits [Log LError [multierror.Error_text m]]
           (emits (map (walk_event env) (directories env))
              (allocated env w0)))
  | None =>
      Run_files env (fresh_ref w0)
        (args ++ concat (map (walk_files env) (directories env))) true
        (emits (map (walk_event env) (directories env)) (allocated env w0))
  end.
Proof.
  unfold bind at 1. unfold NewSchemaCache. fold (fresh_ref w0).
  change (emit (EvNewSchemaCache (fresh_ref w0)) _) with (allocated env w0).
  unfold bind at 1. rewrite aggregateFiles_spec.
  destruct (combined (omap (walk_error env) (directories env))); reflexivity.
Qed.

Lemma Run_body_FromStdin args w :
  route env args = FromStdin ->
  Run_body env args w =
    let w1 := allocated env (colored env w) in
    let c := fresh_ref (colored env w) in
    let name := viper_filename env in
    let cfg := mkConfig (ExitOnError (config w)) name in
    let input := bufferLines (Stdin_lines env) in
    match Validate env input (newCache env) cfg with
    | (inr e, contents) =>
        (Exit 1%Z,
         validated w1 c name contents
           [EvValidate input c cfg (inr e); Log LError [e]])
    | (inl results, contents) =>
        (Ret (forallb noErrors results),
         validated w1 c name contents
           (EvValidate input c cfg (inl results) :: reports results))
    end.
Proof.
  unfold route. intros Hroute.
  assert (exists st, Stdin_Stat env = inl st /\
                     readsStdin args false (Some st) = true)
    as (st & Hstat & Hreads).
  { destruct (Stdin_Stat env) as [st|err].
    - exists st. split; [done|].
      destruct (readsStdin args false (Some st)); [done|].
      by destruct ((length args <? 1)%nat
                   && (length (directories env) <? 1)%nat).
    - destruct (negb (String.eqb (GOOS env) "windows")); [done|].
      rewrite readsStdin_windows in Hroute.
      by destruct ((length args <? 1)%nat
                   && (length (directories env) <? 1)%nat). }
  unfold Run_body. rewrite Hstat. cbv beta iota zeta.
  rewrite bind_ret, bind_forceColor, Hreads. unfold bind at 1. unfold NewSchemaCache.
  fold (fresh_ref (colored env w)).
  change (emit (EvNewSchemaCache (fresh_ref (colored env w))) _)
    with (allocated env (colored env w)).
  unfold bind at 1. unfold set_FileName. unfold bind at 1.
  unfold ValidateWithCache. cbn [config NoColor heap trace].
  match goal with
  | |- context [deref env ?x ?y] =>
      replace (deref env x y) with (newCache env)
        by (unfold deref, allocated; simpl; by rewrite lookup_insert_eq)
  end.
  cbn [allocated config]. rewrite colored_config.
  destruct (Validate env (bufferLines (Stdin_lines env)) (newCache env)
              (mkConfig (ExitOnError (config w)) (viper_filename env)))
    as [[results|e] contents].
  - rewrite logResults_spec. unfold emit, emits, validated, allocated. simpl.
    rewrite colored_config. by rewrite <- !app_assoc.
  - unfold bind, log_Error, os_Exit, emit, validated, allocated. simpl.
    rewrite colored_config. by rewrite <- !app_assoc.
Qed.

Lemma Run_body_FromFiles args w :
  route env args = FromFiles ->
  Run_body env args w =
    let w0 := colored env w in
    let w2 := emits (map (walk_event env) (directories env))
                (allocated env w0) in
    let files := args ++ concat (map (walk_files env) (directories env)) in
    match combined (omap (walk_error env) (directories env)) with
    | Some m =>
        Run_files env (fresh_ref w0) files false
          (emits [Log LError [multierror.Error_text m]] w2)
    | None => Run_files env (fresh_ref w0) files true w2
    end.
Proof.
  unfold route. intros Hroute.
  unfold Run_body. cbv zeta.
  destruct (Stdin_Stat env) as [st|err].
  - destruct (readsStdin args false (Some st)) eqn:Hreads; [done|].
    destruct ((length args <? 1)%nat && (length (directories env) <? 1)%nat)
      eqn:Husage; [done|].
    rewrite bind_ret, bind_forceColor, Hreads, bind_ret.
    apply through_files.
  - destruct (negb (String.eqb (GOOS env) "windows")); [done|].
    rewrite readsStdin_windows in Hroute.
    destruct ((length args <? 1)%nat && (length (directories env) <? 1)%nat)
      eqn:Husage; [done|].
    rewrite bind_ret, bind_forceColor, readsStdin_windows, bind_ret.
    apply through_files.
Qed.

Lemma if_case {A} (b : bool) (x y : A) :
  (b = true /\ (if b then x else y) = x) \/
  (b = false /\ (if b then x else y) = y).
Proof. destruct b; auto. Qed.

(** Splits on the early-exit flag where the loop tests it, and nowhere
    else. *)
Ltac split_on_flag w H :=
  match goal with
  | |- context [if ExitOnError (config w) then ?x else ?y] =>
      let Hif := fresh "Hif" in
      destruct (if_case (ExitOnError (config w)) x y) as [[H Hif]|[H Hif]];
      rewrite Hif; clear Hif
  end.

(** The loop follows the rules, whatever the files and the world. *)
Lemma Run_files_FilesRun c files success w :
  exists evs,
    FilesRun env c files success w evs
      (Run_files env c files success w).1 (Run_files env c files success w).2.
Proof.
  revert success w. induction files as [|f rest IH]; intros success w.
  - exists []. constructor.
  - rewrite Run_files_cons.
    destruct (ReadFile env (Abs env f)) as [input|e] eqn:Hread.
    + cbv zeta.
      destruct (Validate env input (deref env w c)
                  (mkConfig (ExitOnError (config w)) f))
        as [[results|e] contents] eqn:Hval.
      * edestruct IH as [evs Hevs]. eexists.
        eapply FR_validated; eauto.
      * split_on_flag w Hexit.
        -- eexists. by eapply FR_invocation_exit.
        -- edestruct IH as [evs Hevs]. eexists.
           eapply FR_invocation_next; eauto.
    + cbv zeta. split_on_flag w Hexit.
      * eexists. by eapply FR_unreadable_exit.
      * edestruct IH as [evs Hevs]. eexists.
        eapply FR_unreadable_next; eauto.
Qed.

Lemma FilesRun_trace c files success w evs res w' :
  FilesRun env c files success w evs res w' ->
  trace w' = trace w ++ evs /\
  ExitOnError (config w') = ExitOnError (config w).
Proof.
  induction 1 as
    [s w|f rest s w e Hread Hexit step|f rest s w e evs res w' Hread Hexit step _ [IH1 IH2]
    |f rest s w input e contents Hread cfg Hval Hexit step
    |f rest s w input e contents evs res w' Hread cfg Hval Hexit step _ [IH1 IH2]
    |f rest s w input results contents evs res w' Hread cfg Hval step _ [IH1 IH2]];
    simpl.
  - by rewrite app_nil_r.
  - done.
  - rewrite IH1, IH2. simpl. by rewrite <- app_assoc.
  - done.
  - rewrite IH1, IH2. simpl. by rewrite <- app_assoc.
  - rewrite IH1, IH2. simpl. by rewrite <- !app_assoc.
Qed.

Lemma events_since_app w w' evs :
  trace w' = trace w ++ evs -> events_since w w' = evs.
Proof. unfold events_since. intros ->. by rewrite drop_app_length. Qed.

(** Lines of the log do not count for any of the properties of a trace. *)
Lemma reports_log results : Forall is_log (reports results).
Proof.
  unfold reports. apply Forall_concat, Forall_map, Forall_forall.
  intros r _. destruct (classify r); simpl; repeat constructor.
  apply Forall_map, Forall_forall. by intros.
Qed.

Lemma log_no_failure evs : Forall is_log evs -> existsb failure evs = false.
Proof. induction 1 as [|[] evs]; simpl; done. Qed.

Lemma log_quiet evs : Forall is_log evs -> Forall is_quiet evs.
Proof. intros H. eapply Forall_impl; [exact H|]. by intros []. Qed.

Lemma reports_quiet results : Forall is_quiet (reports results).
Proof. apply log_quiet, reports_log. Qed.

Lemma walks_quiet dirs : Forall is_quiet (map (walk_event env) dirs).
Proof. apply Forall_map, Forall_forall. by intros. Qed.

Lemma quiet_no_read evs : Forall is_quiet evs -> read_paths evs = [].
Proof. induction 1 as [|[] evs]; simpl; done. Qed.

Lemma quiet_no_validation evs : Forall is_quiet evs -> validations evs = [].
Proof. induction 1 as [|[] evs]; simpl; done. Qed.

Lemma quiet_uses_cache c evs :
  Forall is_quiet evs -> Forall (uses_cache c) evs.
Proof. intros H. eapply Forall_impl; [exact H|]. by intros []. Qed.

Lemma threaded_quiet contents quiet evs :
  Forall is_quiet quiet ->
  threaded env contents (quiet ++ evs) <-> threaded env contents evs.
Proof. induction 1 as [|[] quiet]; simpl; done. Qed.

Lemma threaded_all_quiet contents quiet :
  Forall is_quiet quiet -> threaded env contents quiet.
Proof. induction 1 as [|[] quiet]; simpl; done. Qed.

Lemma deref_validated w c name contents evs :
  deref env (validated w c name contents evs) c = contents.
Proof. unfold deref, validated. simpl. by rewrite lookup_insert_eq. Qed.

Lemma deref_emits w c evs : deref env (emits evs w) c = deref env w c.
Proof. reflexivity. Qed.

Lemma read_paths_app evs1 evs2 :
  read_paths (evs1 ++ evs2) = read_paths evs1 ++ read_paths evs2.
Proof. apply omap_app. Qed.

Lemma validations_app evs1 evs2 :
  validations (evs1 ++ evs2) = validations evs1 ++ validations evs2.
Proof. apply omap_app. Qed.

(** The flag at the end of the loop is the flag at its start lowered by
    any failure among the events; an exit is an exit with status 1 after a
    failure. *)
Lemma FilesRun_verdict c files success w evs res w' :
  FilesRun env c files success w evs res w' ->
  match res with
  | Ret b => b = success && negb (existsb failure evs)
  | Exit code =>
      code = 1%Z /\ existsb failure evs = true /\
      ExitOnError (config w) = true
  end.
Proof.
  induction 1 as
    [s w|f rest s w e Hread Hexit step
    |f rest s w e evs res w' Hread Hexit step _ IH
    |f rest s w input e contents Hread cfg Hval Hexit step
    |f rest s w input e contents evs res w' Hread cfg Hval Hexit step _ IH
    |f rest s w input results contents evs res w' Hread cfg Hval step _ IH].
  - simpl. by rewrite andb_true_r.
  - done.
  - destruct res as [b|code]; simpl in *.
    + by rewrite IH, andb_false_r.
    + destruct IH as (_ & _ & IH). congruence.
  - done.
  - destruct res as [b|code]; simpl in *.
    + by rewrite IH, andb_false_r.
    + destruct IH as (_ & _ & IH). congruence.
  - subst step. rewrite existsb_app, existsb_app.
    rewrite (log_no_failure (reports results)) by apply reports_log.
    assert (Hfail : failure (EvValidate input c cfg (inl results)) =
                    negb (forallb noErrors results)).
    { unfold failure. simpl. by rewrite !orb_false_r. }
    cbn [existsb]. rewrite Hfail.
    change (failure (EvReadFile (Abs env f) (inl input))) with false.
    destruct res as [b|code]; simpl in *.
    + rewrite IH. by destruct s, (forallb noErrors results).
    + destruct IH as (-> & -> & IH). split; [done|]. split; [|done].
      by rewrite !orb_true_r.
Qed.

(** Every call of the engine in the loop is handed the one reference, and
    sees the cache as the call before it left it. *)
Lemma FilesRun_cache c files success w evs res w' :
  FilesRun env c files success w evs res w' ->
  Forall (uses_cache c) evs /\ threaded env (deref env w c) evs.
Proof.
  induction 1 as
    [s w|f rest s w e Hread Hexit step
    |f rest s w e evs res w' Hread Hexit step _ [IH1 IH2]
    |f rest s w input e contents Hread cfg Hval Hexit step
    |f rest s w input e contents evs res w' Hread cfg Hval Hexit step _ [IH1 IH2]
    |f rest s w input results contents evs res w' Hread cfg Hval step _ [IH1 IH2]].
  - done.
  - split; [by repeat constructor|done].
  - split; [by repeat constructor|done].
  - split; [by repeat constructor|]. simpl. by rewrite Hval.
  - rewrite deref_validated in IH2.
    split; [by repeat constructor|]. simpl. by rewrite Hval.
  - rewrite deref_validated in IH2. subst step. split.
    + repeat (apply Forall_cons; split; [done|]).
      apply Forall_app. split; [|done].
      apply quiet_uses_cache, reports_quiet.
    + simpl. rewrite Hval. split; [done|].
      apply threaded_quiet; [apply reports_quiet|done].
Qed.

(** The loop takes the files in order: at any point some first part of the
    list has been tried, each file of it handed to [ReadFile] and each
    readable one to the engine under its own name; when the loop returns,
    that part is the whole list. *)
Lemma FilesRun_progress c files success w evs res w' :
  FilesRun env c files success w evs res w' ->
  exists tried rest,
    files = tried ++ rest /\
    read_paths evs = map (Abs env) tried /\
    validations evs = readable env tried /\
    (forall b, res = Ret b -> rest = []).
Proof.
  induction 1 as
    [s w|f rest s w e Hread Hexit step
    |f rest s w e evs res w' Hread Hexit step _ (tried & rest' & -> & IH1 & IH2 & IH3)
    |f rest s w input e contents Hread cfg Hval Hexit step
    |f rest s w input e contents evs res w' Hread cfg Hval Hexit step _
       (tried & rest' & -> & IH1 & IH2 & IH3)
    |f rest s w input results contents evs res w' Hread cfg Hval step _
       (tried & rest' & -> & IH1 & IH2 & IH3)].
  - by exists [], [].
  - exists [f], rest. unfold readable. simpl. by rewrite Hread.
  - exists (f :: tried), rest'. unfold readable in *. simpl.
    by rewrite Hread, IH1, IH2.
  - exists [f], rest. unfold readable. simpl. by rewrite Hread.
  - exists (f :: tried), rest'. unfold readable in *. simpl.
    by rewrite Hread, IH1, IH2.
  - exists (f :: tried), rest'. subst step.
    split; [done|]. split; [|split; [|done]].
    + rewrite !read_paths_app, (quiet_no_read (reports results))
        by apply reports_quiet.
      simpl. by rewrite IH1.
    + rewrite !validations_app, (quiet_no_validation (reports results))
        by apply reports_quiet.
      unfold readable in *. simpl. by rewrite Hread, IH2.
Qed.

(** The loop touches no cache but the one it was given. *)
Lemma FilesRun_heap c files success w evs res w' :
  FilesRun env c files success w evs res w' ->
  forall c', c' <> c -> heap w' !! c' = heap w !! c'.
Proof.
  induction 1 as
    [s w|f rest s w e Hread Hexit step
    |f rest s w e evs res w' Hread Hexit step _ IH
    |f rest s w input e contents Hread cfg Hval Hexit step
    |f rest s w input e contents evs res w' Hread cfg Hval Hexit step _ IH
    |f rest s w input results contents evs res w' Hread cfg Hval step _ IH];
    intros c' Hc'; try done.
  - by apply IH.
  - simpl. by rewrite lookup_insert_ne.
  - rewrite IH by done. simpl. by rewrite lookup_insert_ne.
  - rewrite IH by done. simpl. by rewrite lookup_insert_ne.
Qed.

End Orchestrator.

Section LoopProperties.

Context {SchemaCache : Type} (env : @Env SchemaCache).
Implicit Types (w : @World SchemaCache) (files : list string)
  (c : CacheRef).

Lemma readable_read f input files :
  (f, input) ∈ readable env files -> ReadFile env (Abs env f) = inl input.
Proof.
  unfold readable. rewrite list_elem_of_omap. intros (g & _ & Hg).
  destruct (ReadFile env (Abs env g)) eqn:Hread; [|done].
  by injection Hg as -> ->.
Qed.

(** C7: a file that cannot be read is reported with "Could not open
    file", the early-exit policy is applied (exit with status 1 when the
    flag is set), otherwise the loop goes on to the next file with the
    success flag false, so that the loop never returns true; the engine is
    not called in that turn, and in no turn of any loop is it called under
    the name of that file. *)
Theorem unreadable_file_is_skipped c (f : string) (rest : list string)
    (success : bool) w (e : error) :
  ReadFile env (Abs env f) = inr e ->
  let step := [EvReadFile (Abs env f) (inr e);
               Log LError ["Could not open file"; f]] in
  Run_files env c (f :: rest) success w =
    (if ExitOnError (config w) then (Exit 1%Z, emits step w)
     else Run_files env c rest false (emits step w)) /\
  validations step = [] /\
  (Run_files env c (f :: rest) success w).1 <> Ret true /\
  (forall files success0 w0 input,
     (f, input) ∉
       validations
         (events_since w0 (Run_files env c files success0 w0).2)).
Proof.
  intros Hread step. split; [|split; [done|split]].
  - by rewrite Run_files_cons, Hread.
  - rewrite Run_files_cons, Hread. subst step. cbv zeta.
    destruct (ExitOnError (config w)); [done|].
    set (step := [EvReadFile (Abs env f) (inr e);
                  Log LError ["Could not open file"; f]]).
    destruct (Run_files_FilesRun env c rest false (emits step w))
      as [evs Hrun].
    apply FilesRun_verdict in Hrun.
    destruct (Run_files env c rest false (emits step w)).1 as [b|code];
      [|done].
    rewrite andb_false_l in Hrun. congruence.
  - intros files success0 w0 input Hin.
    destruct (Run_files_FilesRun env c files success0 w0) as [evs Hrun].
    destruct (FilesRun_trace env _ _ _ _ _ _ _ Hrun) as [Htrace _].
    rewrite (events_since_app _ _ _ Htrace) in Hin.
    destruct (FilesRun_progress env _ _ _ _ _ _ _ Hrun)
      as (tried & rest' & _ & _ & Hv & _).
    rewrite Hv in Hin. apply readable_read in Hin. congruence.
Qed.

(** C3: with the early-exit flag set, a file that cannot be read and a
    call of the engine that fails each end the process at once with status
    1, nothing being observed after the report of the failure; results
    that carry schema errors end nothing: whatever the flag, the loop goes
    on with the remaining files.  On standard input a failed call of the
    engine ends the process with status 1 whatever the flag. *)
Theorem early_exit_policy c (f : string) (rest : list string)
    (success : bool) w :
  ExitOnError (config w) = true ->
  (forall e,
     ReadFile env (Abs env f) = inr e ->
     Run_files env c (f :: rest) success w =
       (Exit 1%Z,
        emits [EvReadFile (Abs env f) (inr e);
               Log LError ["Could not open file"; f]] w)) /\
  (forall input e contents,
     ReadFile env (Abs env f) = inl input ->
     Validate env input (deref env w c) (mkConfig true f) = (inr e, contents) ->
     Run_files env c (f :: rest) success w =
       (Exit 1%Z,
        validated w c f contents
          [EvReadFile (Abs env f) (inl input);
           EvValidate input c (mkConfig true f) (inr e); Log LError [e]])) /\
  (forall w0 input results contents,
     ReadFile env (Abs env f) = inl input ->
     Validate env input (deref env w0 c)
       (mkConfig (ExitOnError (config w0)) f) = (inl results, contents) ->
     Run_files env c (f :: rest) success w0 =
       Run_files env c rest (success && forallb noErrors results)
         (validated w0 c f contents
            ([EvReadFile (Abs env f) (inl input);
              EvValidate input c (mkConfig (ExitOnError (config w0)) f)
                (inl results)] ++ reports results))) /\
  (forall args w0 e contents,
     route env args = FromStdin ->
     Validate env (bufferLines (Stdin_lines env)) (newCache env)
       (mkConfig (ExitOnError (config w0)) (viper_filename env))
       = (inr e, contents) ->
     (Run env args w0).1 = Exit 1%Z).
Proof.
  intros Hflag. split; [|split; [|split]].
  - intros e Hread. by rewrite Run_files_cons, Hread, Hflag.
  - intros input e contents Hread Hval.
    rewrite Run_files_cons, Hread. cbv zeta. rewrite Hflag, Hval. 
    reflexivity.
  - intros w0 input results contents Hread Hval.
    rewrite Run_files_cons, Hread. cbv zeta. by rewrite Hval.
  - intros args w0 e contents Hroute Hval. unfold Run, bind.
    rewrite Run_body_FromStdin by done. cbv zeta. by rewrite Hval.
Qed.

End LoopProperties.

(** ** The whole run *)

Section WholeRun.

Context {SchemaCache : Type} (env : @Env SchemaCache).
Implicit Types (w : @World SchemaCache) (files : list string)
  (c : CacheRef) (args : list string).

(** Lines 107 to 109 add nothing to the world. *)
Lemma Run_outcome args w :
  Run env args w =
  (match (Run_body env args w).1 with
   | Ret true => Ret tt
   | Ret false => Exit 1%Z
   | Exit code => Exit code
   end,
   (Run_body env args w).2).
Proof.
  unfold Run, bind. by destruct (Run_body env args w) as [[[]|] w'].
Qed.

Lemma walks_failure dirs :
  existsb failure (map (walk_event env) dirs) =
  match combined (omap (walk_error env) dirs) with
  | Some _ => true
  | None => false
  end.
Proof.
  induction dirs as [|d dirs IH]; [done|].
  simpl. unfold walk_event at 1.
  destruct (walk_error env d) as [e|]; [done|].
  by rewrite IH.
Qed.

Lemma existsb_failure evs :
  existsb failure evs = true <->
  existsb schema_errors evs = true \/ existsb read_failure evs = true \/
  existsb invocation_failure evs = true \/ existsb walk_failure evs = true.
Proof.
  induction evs as [|e evs IH]; simpl.
  - intuition congruence.
  - rewrite !orb_true_iff, IH. unfold failure. rewrite !orb_true_iff. tauto.
Qed.

(** A run that goes through the files: a cache is made, the directories
    are walked, the combined error is logged if there is one, and the loop
    starts with the flag that says whether every walk went well. *)
Lemma Run_body_files_shape args w :
  route env args = FromFiles ->
  let c := fresh_ref (colored env w) in
  let files := args ++ concat (map (walk_files env) (directories env)) in
  let walks := map (walk_event env) (directories env) in
  exists logs evs w0,
    Forall is_log logs /\
    trace w0 = trace w ++ EvNewSchemaCache c :: walks ++ logs /\
    config w0 = config w /\
    heap w0 = <[c := newCache env]> (heap w) /\
    FilesRun env c files (negb (existsb failure walks)) w0 evs
      (Run_body env args w).1 (Run_body env args w).2.
Proof.
  intros Hroute. cbv zeta. rewrite Run_body_FromFiles by done.
  cbv zeta. rewrite walks_failure.
  set (c := fresh_ref (colored env w)).
  set (files := args ++ concat (map (walk_files env) (directories env))).
  set (walks := map (walk_event env) (directories env)).
  destruct (combined (omap (walk_error env) (directories env))) as [m|].
  - destruct (Run_files_FilesRun env c files false
                (emits [Log LError [multierror.Error_text m]]
                   (emits walks (allocated env (colored env w)))))
      as [evs Hrun].
    eexists [Log LError [multierror.Error_text m]], evs, _.
    split; [by repeat constructor|].
    split; [|split; [|split; [|exact Hrun]]].
    + simpl. rewrite colored_trace. by rewrite <- !app_assoc.
    + simpl. apply colored_config.
    + simpl. by rewrite colored_heap.
  - destruct (Run_files_FilesRun env c files true
                (emits walks (allocated env (colored env w))))
      as [evs Hrun].
    eexists [], evs, _.
    split; [done|].
    split; [|split; [|split; [|exact Hrun]]].
    + simpl. rewrite colored_trace, app_nil_r. by rewrite <- !app_assoc.
    + simpl. apply colored_config.
    + simpl. by rewrite colored_heap.
Qed.

(** The events of a run, and what its outcome has to do with them. *)
Lemma Run_body_verdict args w :
  exists evs,
    trace (Run_body env args w).2 = trace w ++ evs /\
    match (Run_body env args w).1 with
    | Ret b => b = negb (existsb failure evs)
    | Exit code => code = 1%Z
    end.
Proof.
  destruct (route env args) eqn:Hroute.
  - destruct (Run_body_RefusedStdin env args w Hroute) as (err & _ & ->).
    by eexists.
  - rewrite Run_body_FromStdin by done. cbv zeta.
    destruct (Validate env _ _ _) as [[results|e] contents].
    + eexists (EvNewSchemaCache _ :: EvValidate _ _ _ (inl results)
               :: reports results).
      split.
      * simpl. rewrite colored_trace. by rewrite <- !app_assoc.
      * simpl. rewrite (log_no_failure (reports results))
          by apply reports_log.
        unfold failure. simpl. rewrite !orb_false_r.
        by destruct (forallb noErrors results).
    + eexists (EvNewSchemaCache _ :: _). split; [|done].
      simpl. rewrite colored_trace. by rewrite <- !app_assoc.
  - destruct (Run_body_RefusedUsage env args w Hroute) as (_ & _ & ->).
    eexists. split; [|done]. simpl. by rewrite colored_trace.
  - destruct (Run_body_files_shape args w Hroute)
      as (logs & evs & w0 & Hlogs & Htrace & _ & _ & Hrun).
    destruct (FilesRun_trace env _ _ _ _ _ _ _ Hrun) as [Htrace' _].
    apply FilesRun_verdict in Hrun.
    eexists. split.
    + rewrite Htrace', Htrace. rewrite <- app_assoc. reflexivity.
    + destruct (Run_body env args w).1 as [b|code]; [|by destruct Hrun].
      rewrite Hrun, existsb_app. cbn [existsb]. rewrite existsb_app.
      rewrite (log_no_failure logs) by done.
      change (failure (EvNewSchemaCache _)) with false.
      by destruct (existsb failure (map _ _)), (existsb failure evs).
Qed.

(** C1, as the code has it: when the run reaches the final test of the
    success flag, the verdict is false exactly when a document had schema
    errors, a source could not be read, a call of the engine failed, or
    the walk of a directory failed; the process ends with status 0
    exactly when the final test is reached with a true verdict, and with
    status 1 otherwise, also when [os.Exit] ended the run before the
    final test. *)
Theorem final_verdict args w :
  let res := (Run_body env args w).1 in
  let evs := events_since w (Run_body env args w).2 in
  (forall verdict,
     res = Ret verdict ->
     (verdict = false <->
      existsb schema_errors evs = true \/ existsb read_failure evs = true \/
      existsb invocation_failure evs = true \/
      existsb walk_failure evs = true)) /\
  (forall code, res = Exit code -> code = 1%Z) /\
  (exit_status (Run env args w).1 = 0%Z <-> res = Ret true) /\
  (exit_status (Run env args w).1 = 0%Z \/
   exit_status (Run env args w).1 = 1%Z).
Proof.
  intros res evs. subst res evs.
  destruct (Run_body_verdict args w) as (evs & Htrace & Hres).
  rewrite (events_since_app _ _ _ Htrace), Run_outcome. cbn [fst].
  destruct (Run_body env args w).1 as [b|code].
  - split; [|split; [done|split]].
    + intros verdict [= <-]. rewrite <- existsb_failure, Hres.
      by destruct (existsb failure evs).
    + destruct b; simpl; split; congruence.
    + destruct b; simpl; auto.
  - subst code. split; [done|]. split; [by intros code [= <-]|].
    split; [|by right]. simpl. split; congruence.
Qed.

Lemma uses_cache_no_new c evs :
  Forall (uses_cache c) evs -> new_caches evs = 0.
Proof.
  induction 1 as [|[] evs He _ IH]; simpl; try done.
Qed.

(** The events of a run, route by route, as far as caches go. *)
Lemma Run_cache_shape args w :
  let evs := events_since w (Run env args w).2 in
  match route env args with
  | RefusedStdin | RefusedUsage =>
      (Run env args w).1 = Exit 1%Z /\ Forall is_log evs
  | FromStdin | FromFiles =>
      exists c post,
        evs = EvNewSchemaCache c :: post /\
        (c ∉ dom (heap w)) /\
        Forall (uses_cache c) post /\
        threaded env (newCache env) post /\
        (forall c', c' <> c -> heap (Run env args w).2 !! c' = heap w !! c')
  end.
Proof.
  cbv zeta. rewrite Run_outcome. cbn [fst snd].
  assert (Hfresh : fresh_ref (colored env w) ∉ dom (heap w)).
  { unfold fresh_ref. rewrite colored_heap. apply is_fresh. }
  destruct (route env args) eqn:Hroute.
  - destruct (Run_body_RefusedStdin env args w Hroute) as (err & _ & ->).
    split; [done|]. unfold events_since. simpl.
    rewrite drop_app_length. by repeat constructor.
  - rewrite Run_body_FromStdin by done. cbv zeta.
    exists (fresh_ref (colored env w)).
    destruct (Validate env _ _ _) as [[results|e] contents] eqn:Hval.
    + exists (EvValidate (bufferLines (Stdin_lines env))
                (fresh_ref (colored env w))
                (mkConfig (ExitOnError (config w)) (viper_filename env))
                (inl results) :: reports results).
      split; [|split; [done|split; [|split]]].
      * apply events_since_app. simpl. rewrite colored_trace.
        by rewrite <- !app_assoc.
      * constructor; [done|]. apply quiet_uses_cache, reports_quiet.
      * simpl. rewrite Hval. split; [done|].
        apply threaded_all_quiet, reports_quiet.
      * intros c' Hc'. simpl. rewrite !lookup_insert_ne by done.
        by rewrite colored_heap.
    + eexists [EvValidate _ _ _ (inr e); Log LError [e]].
      split; [|split; [done|split; [|split]]].
      * apply events_since_app. simpl. rewrite colored_trace.
        by rewrite <- !app_assoc.
      * by repeat constructor.
      * simpl. by rewrite Hval.
      * intros c' Hc'. simpl. rewrite !lookup_insert_ne by done.
        by rewrite colored_heap.
  - destruct (Run_body_RefusedUsage env args w Hroute) as (_ & _ & ->).
    split; [done|]. unfold events_since. simpl.
    rewrite colored_trace, drop_app_length. by repeat constructor.
  - destruct (Run_body_files_shape args w Hroute)
      as (logs & evs & w0 & Hlogs & Htrace & _ & Hheap0 & Hrun).
    destruct (FilesRun_trace env _ _ _ _ _ _ _ Hrun) as [Htrace' _].
    destruct (FilesRun_cache env _ _ _ _ _ _ _ Hrun) as [Huses Hthr].
    assert (Hderef : deref env w0 (fresh_ref (colored env w)) = newCache env)
      by (unfold deref; by rewrite Hheap0, lookup_insert_eq).
    pose proof (FilesRun_heap env _ _ _ _ _ _ _ Hrun) as Hheap.
    exists (fresh_ref (colored env w)),
      ((map (walk_event env) (directories env) ++ logs) ++ evs).
    split; [|split; [done|split; [|split]]].
    + apply events_since_app. rewrite Htrace', Htrace.
      rewrite <- app_assoc. simpl. by rewrite <- app_assoc.
    + apply Forall_app. split; [|done]. apply quiet_uses_cache.
      apply Forall_app. split; [apply walks_quiet|by apply log_quiet].
    + apply threaded_quiet; [|by rewrite <- Hderef].
      apply Forall_app. split; [apply walks_quiet|by apply log_quiet].
    + intros c' Hc'. rewrite Hheap by done.
      by rewrite Hheap0, lookup_insert_ne.
Qed.

(** C8, as the code has it: a run that is not refused before it starts
    (standard input that cannot be examined, or nothing to validate) makes
    exactly one schema cache, at a reference that was not in use, before
    any directory is walked, any file read or the engine called; every
    call of the engine is handed that one reference, each call sees the
    cache as the call before left it, the first one as [NewSchemaCache]
    built it, and no other cache on the heap is touched.  A run that is
    refused makes no cache and calls nothing. *)
Theorem one_schema_cache args w :
  let evs := events_since w (Run env args w).2 in
  match route env args with
  | RefusedStdin | RefusedUsage =>
      (Run env args w).1 = Exit 1%Z /\ Forall is_log evs /\
      new_caches evs = 0
  | FromStdin | FromFiles =>
      exists c post,
        new_caches evs = 1 /\
        evs = EvNewSchemaCache c :: post /\
        (c ∉ dom (heap w)) /\
        Forall (uses_cache c) post /\
        threaded env (newCache env) post /\
        (forall c', c' <> c -> heap (Run env args w).2 !! c' = heap w !! c')
  end.
Proof.
  pose proof (Run_cache_shape args w) as Hshape. cbv zeta in *.
  destruct (route env args).
  - destruct Hshape as [Hexit Hlogs]. split; [done|]. split; [done|].
    apply (uses_cache_no_new 0), quiet_uses_cache. by apply log_quiet.
  - destruct Hshape as (c & post & Hevs & Hfresh & Huses & Hthr & Hheap).
    exists c, post. split; [|done].
    rewrite Hevs. simpl. f_equal. by apply (uses_cache_no_new c).
  - destruct Hshape as [Hexit Hlogs]. split; [done|]. split; [done|].
    apply (uses_cache_no_new 0), quiet_uses_cache. by apply log_quiet.
  - destruct Hshape as (c & post & Hevs & Hfresh & Huses & Hthr & Hheap).
    exists c, post. split; [|done].
    rewrite Hevs. simpl. f_equal. by apply (uses_cache_no_new c).
Qed.



End WholeRun.

(** C1 as stated fails where a directory cannot be walked: with
    [--directories missing] and the one valid file [a.yaml], the run
    reaches the final test with a false verdict although no document has
    errors, every source is read and no call of the engine fails. *)
Lemma claimed_verdict_rule_refuted :
  ~ claimed_verdict_rule
      (Example.env (inl Example.terminal) [] ["missing"]) ["a.yaml"]
      (Example.start false).
Proof.
  intros Hrule.
  specialize (Hrule false _ eq_refl).
  destruct Hrule as [Hrule _].
  specialize (Hrule eq_refl).
  vm_compute in Hrule. intuition congruence.
Qed.

(** The statement of C7 in the example world: [nope.yaml] cannot be read,
    and the loop over [nope.yaml] and [a.yaml] does not return true. *)
Lemma unreadable_file_is_skipped_witness :
  let env := Example.env (inl Example.terminal) [] [] in
  let e := "open nope.yaml: no such file or directory" in
  let w := Example.start false in
  ReadFile env (Abs env "nope.yaml") = inr e /\
  Run_files env 0 ["nope.yaml"; "a.yaml"] true w =
    Run_files env 0 ["a.yaml"] false
      (emits [EvReadFile "nope.yaml" (inr e);
              Log LError ["Could not open file"; "nope.yaml"]] w) /\
  (Run_files env 0 ["nope.yaml"; "a.yaml"] true w).1 <> Ret true.
Proof.
  intros env e w.
  destruct (unreadable_file_is_skipped env 0 "nope.yaml" ["a.yaml"] true w e
              eq_refl) as (Hstep & _ & Hflag & _).
  split; [reflexivity|]. split; [exact Hstep|exact Hflag].
Defined.

(** The statement of C3 in the example world, with the flag set: the loop
    over [nope.yaml] and [a.yaml] ends the process at the first file. *)
Lemma early_exit_policy_witness :
  let env := Example.env (inl Example.terminal) [] [] in
  let e := "open nope.yaml: no such file or directory" in
  let w := Example.start true in
  ExitOnError (config w) = true /\
  Run_files env 0 ["nope.yaml"; "a.yaml"] true w =
    (Exit 1%Z,
     emits [EvReadFile "nope.yaml" (inr e);
            Log LError ["Could not open file"; "nope.yaml"]] w).
Proof.
  intros env e w. split; [reflexivity|].
  exact (proj1 (early_exit_policy env 0 "nope.yaml" ["a.yaml"] true w eq_refl)
           e eq_refl).
Defined.

(** ** Runs of the example world *)

(** Three files, the second of which is not there, with the early-exit
    flag set: the third file is never read. *)
Example run_stops_at_missing_file :
  let env := Example.env (inl Example.terminal) [] [] in
  let r := Run env ["a.yaml"; "nope.yaml"; "bad.yaml"] (Example.start true) in
  r.1 = Exit 1%Z /\
  read_paths (trace r.2) = ["a.yaml"; "nope.yaml"] /\
  validations (trace r.2) = [("a.yaml", "kind: Pod")].
Proof. vm_compute. done. Qed.

(** The same files with the flag not set: all three are tried, and the
    document with a schema error is reported after the missing file. *)
Example run_goes_past_missing_file :
  let env := Example.env (inl Example.terminal) [] [] in
  let r := Run env ["a.yaml"; "nope.yaml"; "bad.yaml"] (Example.start false) in
  r.1 = Exit 1%Z /\
  read_paths (trace r.2) = ["a.yaml"; "nope.yaml"; "bad.yaml"] /\
  validations (trace r.2) =
    [("a.yaml", "kind: Pod"); ("bad.yaml", "kind: Deployment")].
Proof. vm_compute. done. Qed.

(** A schema error does not end the run even with the flag set: the file
    after it is validated. *)
Example run_goes_past_schema_error :
  let env := Example.env (inl Example.terminal) [] [] in
  let r := Run env ["bad.yaml"; "a.yaml"] (Example.start true) in
  r.1 = Exit 1%Z /\
  validations (trace r.2) =
    [("bad.yaml", "kind: Deployment"); ("a.yaml", "kind: Pod")].
Proof. vm_compute. done. Qed.

(** Two valid files share the one cache: the second call of the engine
    finds what the first one left. *)
Example run_shares_the_cache :
  let env := Example.env (inl Example.terminal) [] ["e"] in
  let r := Run env ["a.yaml"] (Example.start false) in
  r.1 = Ret tt /\
  heap r.2 !! 0 = Some 2 /\
  read_paths (trace r.2) = ["a.yaml"; "e/b.yaml"].
Proof. vm_compute. done. Qed.

(** A document without a kind piped in on standard input: one empty
    document, and the run succeeds. *)
Example run_from_stdin :
  let env := Example.env (inl Example.pipe) ["a: 1"] [] in
  let r := Run env [] (Example.start false) in
  r.1 = Ret tt /\
  validations (trace r.2) = [("stdin", "a: 1" +:+ nl)] /\
  last (trace r.2) =
    Some (Log LSuccess ["The file"; "stdin"; "contains an empty YAML document"]).
Proof. vm_compute. done. Qed.

(** Nothing to validate and a terminal on standard input: the run is
    refused. *)
Example run_refused :
  let env := Example.env (inl Example.terminal) [] [] in
  Run env [] (Example.start false) =
    (Exit 1%Z, emits [Log LError [usage_message]] (Example.start false)).
Proof. reflexivity. Qed.

(** C8 as stated fails for a run that is refused: with no argument, no
    directory and a terminal on standard input the run ends at the usage
    message of line 78, before either call of [NewSchemaCache], and no
    cache has been made. *)
Lemma claimed_one_cache_refuted :
  ~ claimed_one_cache (Example.env (inl Example.terminal) [] []) []
      (Example.start false).
Proof. unfold claimed_one_cache. vm_compute. discriminate. Qed.

(** ** Which source a run takes *)

Section SourceSelection.

Context {SchemaCache : Type}.
Implicit Types (env : @Env SchemaCache) (w : @World SchemaCache)
  (args : list string).

Lemma quiet_no_walk evs : Forall is_log evs -> walked evs = [].
Proof. induction 1 as [|[] evs]; simpl; done. Qed.

Lemma walked_app evs1 evs2 : walked (evs1 ++ evs2) = walked evs1 ++ walked evs2.
Proof. apply omap_app. Qed.

(** A run that reads standard input calls the engine once, on the
    buffered lines and under the file name viper gives; it walks no
    directory and reads no file, whatever arguments and directories it was
    given, and that one call decides how the process ends. *)
Theorem stdin_is_validated_once env args w :
  route env args = FromStdin ->
  let evs := events_since w (Run env args w).2 in
  let input := bufferLines (Stdin_lines env) in
  let cfg := mkConfig (ExitOnError (config w)) (viper_filename env) in
  validations evs = [(viper_filename env, input)] /\
  read_paths evs = [] /\
  walked evs = [] /\
  (Run env args w).1 =
    match (Validate env input (newCache env) cfg).1 with
    | inr _ => Exit 1%Z
    | inl results => if forallb noErrors results then Ret tt else Exit 1%Z
    end.
Proof.
  intros Hroute. cbv zeta. rewrite Run_outcome. cbn [fst snd].
  rewrite Run_body_FromStdin by done. cbv zeta.
  destruct (Validate env _ _ _) as [[results|e] contents]; cbn [fst snd].
  - rewrite (events_since_app _ _
               (EvNewSchemaCache (fresh_ref (colored env w))
                :: EvValidate (bufferLines (Stdin_lines env))
                     (fresh_ref (colored env w))
                     (mkConfig (ExitOnError (config w)) (viper_filename env))
                     (inl results)
                :: reports results)).
    + change (validations (?a :: ?b :: ?l))
        with ((viper_filename env, bufferLines (Stdin_lines env))
              :: validations l).
      change (read_paths (?a :: ?b :: ?l)) with (read_paths l).
      change (walked (?a :: ?b :: ?l)) with (walked l).
      rewrite quiet_no_validation, quiet_no_read by apply reports_quiet.
      rewrite quiet_no_walk by apply reports_log.
      by destruct (forallb noErrors results).
    + simpl. rewrite colored_trace. by rewrite <- !app_assoc.
  - rewrite (events_since_app _ _
               [EvNewSchemaCache (fresh_ref (colored env w));
                EvValidate (bufferLines (Stdin_lines env))
                  (fresh_ref (colored env w))
                  (mkConfig (ExitOnError (config w)) (viper_filename env))
                  (inr e);
                Log LError [e]]); [done|].
    simpl. rewrite colored_trace. by rewrite <- !app_assoc.
Qed.

(** Two runs that both read standard input, in environments that agree on
    standard input and on the engine, are the same run: the arguments, the
    directories and the file system play no part. *)
Theorem stdin_run_ignores_files env1 env2 args1 args2 w :
  same_stdin_side env1 env2 ->
  route env1 args1 = FromStdin ->
  route env2 args2 = FromStdin ->
  Run env1 args1 w = Run env2 args2 w.
Proof.
  intros (Hstat & Hlines & Hcolor & Hname & Hnew & Hval) Hr1 Hr2.
  rewrite !Run_outcome, !Run_body_FromStdin by done.
  unfold allocated, colored, fresh_ref.
  by rewrite Hlines, Hcolor, Hname, Hnew, Hval.
Qed.

Lemma route_same_files env1 env2 args :
  GOOS env1 = GOOS env2 -> Stdin_Stat env1 = Stdin_Stat env2 ->
  directories env1 = directories env2 ->
  route env1 args = route env2 args.
Proof. unfold route. by intros -> -> ->. Qed.

(** Once two runs go through the files, they are the same run as soon as
    the environments agree on the files side. *)
Lemma Run_body_files_ext env1 env2 args w :
  same_files_side env1 env2 ->
  route env1 args = FromFiles ->
  route env2 args = FromFiles ->
  Run_body env1 args w = Run_body env2 args w.
Proof.
  intros (Hcolor & Hdirs & Habs & Hread & Hwalk & Hnew & Hval) Hr1 Hr2.
  rewrite !Run_body_FromFiles by done.
  destruct env1, env2. simpl in *. subst. reflexivity.
Qed.

Lemma Run_body_usage_ext env1 env2 args w :
  forceColor env1 = forceColor env2 ->
  route env1 args = RefusedUsage ->
  route env2 args = RefusedUsage ->
  Run_body env1 args w = Run_body env2 args w.
Proof.
  intros Hcolor Hr1 Hr2.
  destruct (Run_body_RefusedUsage env1 args w Hr1) as (_ & _ & ->).
  destruct (Run_body_RefusedUsage env2 args w Hr2) as (_ & _ & ->).
  unfold colored. by rewrite Hcolor.
Qed.

(** A run that does not read standard input never looks at what is on it:
    two environments that differ only in the lines on standard input and
    in the file name viper gives for them yield the same run. *)
Theorem file_run_ignores_stdin env1 env2 args w :
  GOOS env1 = GOOS env2 ->
  Stdin_Stat env1 = Stdin_Stat env2 ->
  same_files_side env1 env2 ->
  route env1 args <> FromStdin ->
  Run env1 args w = Run env2 args w.
Proof.
  intros Hgoos Hstat Hsame Hroute.
  pose proof Hsame as (Hcolor & Hdirs & _).
  pose proof (route_same_files env1 env2 args Hgoos Hstat Hdirs) as Hr.
  rewrite !Run_outcome.
  assert (Run_body env1 args w = Run_body env2 args w) as ->; [|done].
  destruct (route env1 args) eqn:Hr1; [|done| |].
  - destruct (Run_body_RefusedStdin env1 args w Hr1) as (e1 & He1 & ->).
    destruct (Run_body_RefusedStdin env2 args w (eq_sym Hr))
      as (e2 & He2 & ->).
    congruence.
  - by apply Run_body_usage_ext.
  - by apply Run_body_files_ext.
Qed.

(** On windows a probe of standard input that fails does not stop the run
    and does not make it read standard input: the run is the one that a
    terminal on standard input gives. *)
Theorem failed_probe_on_windows_is_a_terminal env1 env2 args w err st :
  GOOS env1 = "windows" ->
  Stdin_Stat env1 = inr err ->
  Stdin_Stat env2 = inl st ->
  Z.land (Mode st) ModeCharDevice <> 0%Z ->
  same_files_side env1 env2 ->
  Run env1 args w = Run env2 args w.
Proof.
  intros Hgoos Hstat1 Hstat2 Hchar Hsame.
  pose proof Hsame as (Hcolor & Hdirs & _).
  assert (Hreads : readsStdin args false (Some st) = false).
  { unfold readsStdin. apply Z.eqb_neq in Hchar. rewrite Hchar.
    by rewrite andb_false_r. }
  assert (Hr : route env1 args = route env2 args).
  { unfold route. rewrite Hstat1, Hstat2, Hgoos, Hreads, Hdirs.
    by rewrite readsStdin_windows. }
  assert (Hne : route env2 args = RefusedUsage \/ route env2 args = FromFiles).
  { unfold route. rewrite Hstat2, Hreads.
    destruct (_ && _); auto. }
  rewrite !Run_outcome.
  assert (Run_body env1 args w = Run_body env2 args w) as ->; [|done].
  destruct Hne as [Hr2|Hr2]; rewrite Hr2 in Hr.
  - by apply Run_body_usage_ext.
  - by apply Run_body_files_ext.
Qed.

End SourceSelection.

(** ** Edges of a run *)

Section RunEdges.

Context {SchemaCache : Type} (env : @Env SchemaCache).
Implicit Types (w : @World SchemaCache) (args files : list string)
  (c : CacheRef) (evs : list Event).

(** A run over directories in which no [.yaml] file is found, and with no
    file argument, reads nothing and calls the engine for nothing; it
    succeeds when every walk went well and fails when one did not. *)
Theorem nothing_found_is_no_failure args w :
  route env args = FromFiles ->
  args ++ concat (map (walk_files env) (directories env)) = [] ->
  let evs := events_since w (Run env args w).2 in
  read_paths evs = [] /\
  validations evs = [] /\
  walked evs = directories env /\
  (Run env args w).1 =
    match combined (omap (walk_error env) (directories env)) with
    | Some _ => Exit 1%Z
    | None => Ret tt
    end.
Proof.
  intros Hroute Hfiles. cbv zeta. rewrite Run_outcome. cbn [fst snd].
  rewrite Run_body_FromFiles by done. cbv zeta. rewrite Hfiles.
  assert (Hwalked : forall dirs,
            walked (map (walk_event env) dirs) = dirs).
  { induction dirs as [|d dirs IH]; [done|].
    change (walked (map (walk_event env) (d :: dirs)))
      with (d :: walked (map (walk_event env) dirs)).
    by rewrite IH. }
  pose proof (walks_quiet env (directories env)) as Hquiet.
  destruct (combined (omap (walk_error env) (directories env))) as [m|];
    cbn [Run_files ret fst snd].
  - rewrite (events_since_app _ _
               (EvNewSchemaCache (fresh_ref (colored env w))
                :: map (walk_event env) (directories env)
                   ++ [Log LError [multierror.Error_text m]])).
    + change (read_paths (?a :: ?l)) with (read_paths l).
      change (validations (?a :: ?l)) with (validations l).
      change (walked (?a :: ?l)) with (walked l).
      rewrite read_paths_app, validations_app, walked_app, Hwalked.
      rewrite quiet_no_read, quiet_no_validation by done.
      change (walked [Log LError [multierror.Error_text m]]) with (@nil string).
      rewrite (app_nil_r (directories env)). repeat split; reflexivity.
    + simpl. rewrite colored_trace. rewrite <- !app_assoc. reflexivity.
  - rewrite (events_since_app _ _
               (EvNewSchemaCache (fresh_ref (colored env w))
                :: map (walk_event env) (directories env))).
    + change (read_paths (?a :: ?l)) with (read_paths l).
      change (validations (?a :: ?l)) with (validations l).
      change (walked (?a :: ?l)) with (walked l).
      by rewrite Hwalked, quiet_no_read, quiet_no_validation.
    + simpl. rewrite colored_trace. rewrite <- !app_assoc. reflexivity.
Qed.


End RunEdges.

(** With one empty directory and nothing else, nothing is found and the
    run succeeds without a single call of the engine. *)
Lemma nothing_found_is_no_failure_witness :
  let env := empty_dirs_env ["manifests"] in
  let w := Example.start false in
  route env [] = FromFiles /\
  validations (events_since w (Run env [] w).2) = [] /\
  (Run env [] w).1 = Ret tt.
Proof.
  intros env w.
  destruct (nothing_found_is_no_failure env [] w eq_refl eq_refl)
    as (_ & Hvals & _ & Hres).
  split; [reflexivity|]. split; [exact Hvals|exact Hres].
Defined.


(** ** What a run shows, and what it leaves behind *)

Section RunReports.

Context {SchemaCache : Type} (env : @Env SchemaCache).
Implicit Types (w : @World SchemaCache) (args files : list string)
  (c : CacheRef) (evs : list Event) (results : list ValidationResult).

Lemma described_app evs1 evs2 :
  described (evs1 ++ evs2) = described evs1 ++ described evs2.
Proof. apply omap_app. Qed.

Lemma summaries_app evs1 evs2 :
  summaries (evs1 ++ evs2) = summaries evs1 ++ summaries evs2.
Proof. apply omap_app. Qed.

Lemma accepted_app evs1 evs2 :
  accepted (evs1 ++ evs2) = accepted evs1 ++ accepted evs2.
Proof. unfold accepted. by rewrite omap_app, concat_app. Qed.

Lemma described_infos descs :
  described (map (fun desc => Log LInfo ["--->"; desc]) descs) = descs.
Proof.
  induction descs as [|d descs IH]; [done|].
  change (described (map _ (d :: descs)))
    with (d :: described (map (fun desc => Log LInfo ["--->"; desc]) descs)).
  by rewrite IH.
Qed.

Lemma summaries_infos descs :
  summaries (map (fun desc => Log LInfo ["--->"; desc]) descs) = [].
Proof. induction descs as [|d descs IH]; [done|]. exact IH. Qed.

Lemma log_no_accepted evs : Forall is_log evs -> accepted evs = [].
Proof.
  induction 1 as [|e evs He _ IH]; [done|]. by destruct e.
Qed.

(** What [logResults] shows for a list of results: every error
    description, and one summary for each result. *)
Lemma reports_shown results :
  described (reports results) = concat (map Errors results) /\
  length (summaries (reports results)) = length results.
Proof.
  induction results as [|r results [IH1 IH2]]; [done|].
  change (reports (r :: results))
    with (report (classify r) r ++ reports results).
  rewrite described_app, summaries_app, length_app, IH1, IH2.
  change (concat (map Errors (r :: results)))
    with (Errors r ++ concat (map Errors results)).
  change (length (r :: results)) with (1 + length results).
  unfold classify.
  destruct (Errors r) as [|d ds] eqn:HE.
  - by destruct (decide (Kind r = "")), (ValidatedAgainstSchema r).
  - unfold report. rewrite HE.
    change (described (?a :: ?l)) with (described l).
    change (summaries (Log LWarn ?a :: ?l))
      with (Log LWarn a :: summaries l).
    by rewrite described_infos, summaries_infos.
Qed.

(** The loop over the files shows all that the engine returns. *)
Lemma FilesRun_shown c files success w evs res w' :
  FilesRun env c files success w evs res w' ->
  described evs = concat (map Errors (accepted evs)) /\
  length (summaries evs) = length (accepted evs).
Proof.
  induction 1 as
    [s w|f rest s w e Hread Hexit step
    |f rest s w e evs res w' Hread Hexit step _ [IH1 IH2]
    |f rest s w input e contents Hread cfg Hval Hexit step
    |f rest s w input e contents evs res w' Hread cfg Hval Hexit step _ [IH1 IH2]
    |f rest s w input results contents evs res w' Hread cfg Hval step _ [IH1 IH2]];
    try done.
  subst step.
  destruct (reports_shown results) as [Hd Hs].
  rewrite !described_app, !summaries_app, !accepted_app, !length_app.
  rewrite map_app, concat_app, IH1, IH2, Hd, Hs.
  change (accepted [?a; EvValidate ?i ?c ?g (inl results)])
    with (results ++ []).
  change (accepted (reports results)) with (accepted (reports results)).
  rewrite (log_no_accepted (reports results)), !app_nil_r
    by apply reports_log.
  simpl. split; [done|]. lia.
Qed.

End RunReports.

Section RunShows.

Context {SchemaCache : Type} (env : @Env SchemaCache).
Implicit Types (w : @World SchemaCache) (args files : list string)
  (c : CacheRef) (evs : list Event) (results : list ValidationResult).

Lemma walks_show_nothing dirs :
  described (map (walk_event env) dirs) = [] /\
  summaries (map (walk_event env) dirs) = [] /\
  accepted (map (walk_event env) dirs) = [] /\
  existsb stops (map (walk_event env) dirs) = false.
Proof. induction dirs as [|d dirs IH]; [done|]. exact IH. Qed.

(** The events of a run that goes through the files, laid out. *)
Lemma Run_body_files_events args w :
  route env args = FromFiles ->
  exists line evs w0,
    (line = [] \/ exists text, line = [Log LError [text]]) /\
    events_since w (Run_body env args w).2 =
      EvNewSchemaCache (fresh_ref (colored env w))
      :: (map (walk_event env) (directories env) ++ line) ++ evs /\
    ExitOnError (config w0) = ExitOnError (config w) /\
    NoColor w0 = NoColor (colored env w) /\
    exists success,
      FilesRun env (fresh_ref (colored env w))
        (args ++ concat (map (walk_files env) (directories env)))
        success w0 evs (Run_body env args w).1 (Run_body env args w).2.
Proof.
  intros Hroute. rewrite Run_body_FromFiles by done. cbv zeta.
  destruct (combined (omap (walk_error env) (directories env))) as [m|].
  - match goal with
    | |- context [Run_files env ?c ?fs ?s ?w0] =>
        destruct (Run_files_FilesRun env c fs s w0) as [evs Hrun];
        exists [Log LError [multierror.Error_text m]], evs, w0
    end.
    destruct (FilesRun_trace env _ _ _ _ _ _ _ Hrun) as [Htrace _].
    split; [right; by eexists|]. split; [|split; [|split]].
    + apply events_since_app. rewrite Htrace. simpl.
      rewrite colored_trace. by rewrite <- !app_assoc.
    + simpl. by rewrite colored_config.
    + done.
    + by eexists.
  - match goal with
    | |- context [Run_files env ?c ?fs ?s ?w0] =>
        destruct (Run_files_FilesRun env c fs s w0) as [evs Hrun];
        exists [], evs, w0
    end.
    destruct (FilesRun_trace env _ _ _ _ _ _ _ Hrun) as [Htrace _].
    split; [by left|]. split; [|split; [|split]].
    + apply events_since_app. rewrite Htrace. simpl.
      rewrite colored_trace, app_nil_r. by rewrite <- !app_assoc.
    + simpl. by rewrite colored_config.
    + done.
    + by eexists.
Qed.

Lemma shown_app evs1 evs2 :
  described evs1 = concat (map Errors (accepted evs1)) /\
  length (summaries evs1) = length (accepted evs1) ->
  described evs2 = concat (map Errors (accepted evs2)) /\
  length (summaries evs2) = length (accepted evs2) ->
  described (evs1 ++ evs2) = concat (map Errors (accepted (evs1 ++ evs2))) /\
  length (summaries (evs1 ++ evs2)) = length (accepted (evs1 ++ evs2)).
Proof.
  intros [Hd1 Hs1] [Hd2 Hs2].
  rewrite described_app, summaries_app, accepted_app, map_app, concat_app.
  rewrite !length_app. by rewrite Hd1, Hd2, Hs1, Hs2.
Qed.

(** Whatever the run, the lines of level Info show the error descriptions
    of the results the command goes on with, those of the calls of the
    engine that came back without an error: every one of them, in the
    order the engine gave them, and nothing else; each such result gets
    one summary line.  A call that comes back with an error adds no such
    line. *)
Theorem run_shows_every_accepted_result args w :
  let evs := events_since w (Run env args w).2 in
  described evs = concat (map Errors (accepted evs)) /\
  length (summaries evs) = length (accepted evs).
Proof.
  cbv zeta. rewrite Run_outcome. cbn [snd].
  destruct (route env args) eqn:Hroute.
  - destruct (Run_body_RefusedStdin env args w Hroute) as (err & _ & ->).
    by rewrite (events_since_app _ _ [Log LError [err]]).
  - rewrite Run_body_FromStdin by done. cbv zeta.
    destruct (Validate env _ _ _) as [[results|e] contents]; cbn [snd].
    + rewrite (events_since_app _ _
                 (EvNewSchemaCache (fresh_ref (colored env w))
                  :: EvValidate (bufferLines (Stdin_lines env))
                       (fresh_ref (colored env w))
                       (mkConfig (ExitOnError (config w))
                          (viper_filename env))
                       (inl results)
                  :: reports results)).
      * destruct (reports_shown results) as [Hd Hs].
        change (described (?a :: ?b :: ?l)) with (described l).
        change (summaries (?a :: ?b :: ?l)) with (summaries l).
        change (accepted (?a :: EvValidate ?i ?c ?g (inl results) :: ?l))
          with (results ++ accepted l).
        rewrite (log_no_accepted (reports results)), app_nil_r
          by apply reports_log.
        by rewrite Hd, Hs.
      * simpl. rewrite colored_trace. by rewrite <- !app_assoc.
    + rewrite (events_since_app _ _
                 [EvNewSchemaCache (fresh_ref (colored env w));
                  EvValidate (bufferLines (Stdin_lines env))
                    (fresh_ref (colored env w))
                    (mkConfig (ExitOnError (config w)) (viper_filename env))
                    (inr e);
                  Log LError [e]]); [done|].
      simpl. rewrite colored_trace. by rewrite <- !app_assoc.
  - destruct (Run_body_RefusedUsage env args w Hroute) as (_ & _ & ->).
    rewrite (events_since_app _ _ [Log LError [usage_message]]); [done|].
    simpl. by rewrite colored_trace.
  - destruct (Run_body_files_events args w Hroute)
      as (line & evs & w0 & Hline & -> & _ & _ & success & Hrun).
    destruct (walks_show_nothing (directories env)) as (Hwd & Hws & Hwr & _).
    change (?a :: (?l ++ ?l') ++ ?l'') with (([a] ++ l ++ l') ++ l'').
    apply shown_app; [|by apply (FilesRun_shown env) in Hrun].
    apply (shown_app [_]); [done|].
    apply shown_app; [by rewrite Hwd, Hws, Hwr|].
    by destruct Hline as [->|[text ->]].
Qed.

Lemma halted_skip evs1 evs2 :
  existsb stops evs1 = false ->
  (halted_at_failure (evs1 ++ evs2) <-> halted_at_failure evs2).
Proof.
  induction evs1 as [|e evs1 IH]; [done|]. simpl.
  intros [He Hrest]%orb_false_iff. rewrite He. by apply IH.
Qed.

Lemma log_no_stop evs : Forall is_log evs -> existsb stops evs = false.
Proof. induction 1 as [|[] evs]; simpl; done. Qed.

(** With the early-exit flag set, the loop is over at its first read or
    invocation failure. *)
Lemma FilesRun_halted c files success w evs res w' :
  FilesRun env c files success w evs res w' ->
  ExitOnError (config w) = true ->
  halted_at_failure evs /\
  (existsb stops evs = true <-> res = Exit 1%Z).
Proof.
  induction 1 as
    [s w|f rest s w e Hread Hexit step
    |f rest s w e evs res w' Hread Hexit step _ IH
    |f rest s w input e contents Hread cfg Hval Hexit step
    |f rest s w input e contents evs res w' Hread cfg Hval Hexit step _ IH
    |f rest s w input results contents evs res w' Hread cfg Hval step _ IH];
    intros Hflag; try congruence.
  - split; [done|]. simpl. split; congruence.
  - split; [|done]. simpl. by eexists.
  - split; [|done]. simpl. by eexists.
  - destruct (IH Hflag) as [IH1 IH2]. subst step.
    assert (Hpre : existsb stops
              ([EvReadFile (Abs env f) (inl input);
                EvValidate input c cfg (inl results)] ++ reports results)
              = false).
    { rewrite existsb_app, (log_no_stop (reports results))
        by apply reports_log. done. }
    split; [by apply halted_skip|].
    by rewrite existsb_app, Hpre.
Qed.

(** With the early-exit flag set, whatever the run, the first file that
    cannot be read or call of the engine that fails is the last thing the
    run does but for the line that reports it: nothing is read, walked or
    validated after it, and the process ends with status 1. *)
Theorem flagged_run_halts_at_first_failure args w :
  ExitOnError (config w) = true ->
  let evs := events_since w (Run env args w).2 in
  halted_at_failure evs /\
  (existsb stops evs = true -> (Run env args w).1 = Exit 1%Z).
Proof.
  intros Hflag. cbv zeta. rewrite Run_outcome. cbn [fst snd].
  destruct (route env args) eqn:Hroute.
  - destruct (Run_body_RefusedStdin env args w Hroute) as (err & _ & ->).
    by rewrite (events_since_app _ _ [Log LError [err]]).
  - rewrite Run_body_FromStdin by done. cbv zeta.
    destruct (Validate env _ _ _) as [[results|e] contents]; cbn [fst snd].
    + rewrite (events_since_app _ _
                 ([EvNewSchemaCache (fresh_ref (colored env w));
                   EvValidate (bufferLines (Stdin_lines env))
                     (fresh_ref (colored env w))
                     (mkConfig (ExitOnError (config w))
                        (viper_filename env))
                     (inl results)]
                  ++ reports results)).
      * assert (Hnone : existsb stops
                  ([EvNewSchemaCache (fresh_ref (colored env w));
                    EvValidate (bufferLines (Stdin_lines env))
                      (fresh_ref (colored env w))
                      (mkConfig (ExitOnError (config w))
                         (viper_filename env))
                      (inl results)]
                   ++ reports results) = false).
        { rewrite existsb_app, (log_no_stop (reports results))
            by apply reports_log. done. }
        split; [|by rewrite Hnone].
        rewrite <- (app_nil_r (_ ++ reports results)).
        by apply halted_skip.
      * simpl. rewrite colored_trace. by rewrite <- !app_assoc.
    + rewrite (events_since_app _ _
                 [EvNewSchemaCache (fresh_ref (colored env w));
                  EvValidate (bufferLines (Stdin_lines env))
                    (fresh_ref (colored env w))
                    (mkConfig (ExitOnError (config w)) (viper_filename env))
                    (inr e);
                  Log LError [e]]).
      * split; [|done]. simpl. by eexists.
      * simpl. rewrite colored_trace. by rewrite <- !app_assoc.
  - destruct (Run_body_RefusedUsage env args w Hroute) as (_ & _ & ->).
    rewrite (events_since_app _ _ [Log LError [usage_message]]); [done|].
    simpl. by rewrite colored_trace.
  - destruct (Run_body_files_events args w Hroute)
      as (line & evs & w0 & Hline & -> & Hflag0 & _ & success & Hrun).
    rewrite <- Hflag0 in Hflag.
    destruct (FilesRun_halted _ _ _ _ _ _ _ Hrun Hflag) as [Hh Hs].
    destruct (walks_show_nothing (directories env)) as (_ & _ & _ & Hws).
    assert (Hpre : existsb stops
              (EvNewSchemaCache (fresh_ref (colored env w))
               :: map (walk_event env) (directories env) ++ line) = false).
    { change (existsb stops (?a :: ?l)) with (existsb stops l).
      rewrite existsb_app, Hws. by destruct Hline as [->|[text ->]]. }
    change (?a :: (?l ++ ?l') ++ ?l'') with ((a :: l ++ l') ++ l'').
    split; [by apply halted_skip|].
    rewrite existsb_app, Hpre. simpl. intros Hstop. apply Hs in Hstop.
    by rewrite Hstop.
Qed.

Lemma FilesRun_NoColor c files success w evs res w' :
  FilesRun env c files success w evs res w' -> NoColor w' = NoColor w.
Proof.
  induction 1 as
    [s w|f rest s w e Hread Hexit step
    |f rest s w e evs res w' Hread Hexit step _ IH
    |f rest s w input e contents Hread cfg Hval Hexit step
    |f rest s w input e contents evs res w' Hread cfg Hval Hexit step _ IH
    |f rest s w input results contents evs res w' Hread cfg Hval step _ IH];
    done.
Qed.

(** What a run leaves in the globals: the early-exit flag as it found it,
    and [color.NoColor] false if [forceColor] is set and the run got past
    the probe of standard input, untouched otherwise. *)
Theorem run_leaves_the_flags args w :
  ExitOnError (config (Run env args w).2) = ExitOnError (config w) /\
  NoColor (Run env args w).2 =
    (if forceColor env
     then match route env args with
          | RefusedStdin => NoColor w
          | _ => false
          end
     else NoColor w).
Proof.
  rewrite Run_outcome. cbn [snd].
  assert (Hcol : NoColor (colored env w) =
                 if forceColor env then false else NoColor w)
    by (unfold colored; by destruct (forceColor env)).
  destruct (route env args) eqn:Hroute.
  - destruct (Run_body_RefusedStdin env args w Hroute) as (err & _ & ->).
    split; [done|]. by destruct (forceColor env).
  - rewrite Run_body_FromStdin by done. cbv zeta.
    destruct (Validate env _ _ _) as [[results|e] contents]; cbn [snd];
      (split; [simpl; by rewrite colored_config|]); simpl; rewrite Hcol;
      by destruct (forceColor env).
  - destruct (Run_body_RefusedUsage env args w Hroute) as (_ & _ & ->).
    split; [simpl; by rewrite colored_config|].
    simpl. rewrite Hcol. by destruct (forceColor env).
  - destruct (Run_body_files_events args w Hroute)
      as (line & evs & w0 & _ & _ & Hflag0 & Hcolor0 & success & Hrun).
    destruct (FilesRun_trace env _ _ _ _ _ _ _ Hrun) as [_ Hflag].
    apply FilesRun_NoColor in Hrun.
    split; [congruence|]. rewrite Hrun, Hcolor0, Hcol.
    by destruct (forceColor env).
Qed.

End RunShows.

(** ** The buffer of standard input *)

Section StdinBuffer.

Implicit Types (line : string) (lines : list string).

Lemma bufferLines_cons line lines :
  bufferLines (line :: lines) =
  line +:+ String (ascii_of_nat 10) (bufferLines lines).
Proof.
  change (bufferLines (line :: lines))
    with ((line +:+ nl) +:+ bufferLines lines).
  by rewrite append_assoc.
Qed.

Lemma line_end_inj line1 line2 rest1 rest2 :
  no_newline line1 -> no_newline line2 ->
  line1 +:+ String (ascii_of_nat 10) rest1 =
  line2 +:+ String (ascii_of_nat 10) rest2 ->
  line1 = line2 /\ rest1 = rest2.
Proof.
  revert line2.
  induction line1 as [|a line1 IH]; intros [|b line2] H1 H2;
    rewrite ?append_cons, ?append_nil_l; intros Heq.
  - by injection Heq as ->.
  - injection Heq as Hb _. destruct H2 as [H2 _]. congruence.
  - injection Heq as Ha _. destruct H1 as [H1 _]. congruence.
  - injection Heq as -> Heq. destruct H1 as [_ H1], H2 as [_ H2].
    destruct (IH line2 H1 H2 Heq) as [-> ->]. done.
Qed.

Lemma bufferLines_app lines1 lines2 :
  bufferLines (lines1 ++ lines2) = bufferLines lines1 +:+ bufferLines lines2.
Proof.
  induction lines1 as [|line lines1 IH]; [done|].
  change ((line :: lines1) ++ lines2) with (line :: (lines1 ++ lines2)).
  rewrite !bufferLines_cons, IH.
  by rewrite append_assoc, append_cons.
Qed.

(** The buffer built from standard input loses nothing: two inputs give
    the same buffer only if they are the same lines, every line is in the
    buffer followed by one line feed (also the last one, whether or not
    the input ended with a line feed), and the buffer of the first lines
    is the start of the buffer of all. *)
Theorem bufferLines_lossless lines1 lines2 :
  Forall no_newline lines1 ->
  Forall no_newline lines2 ->
  (bufferLines lines1 = bufferLines lines2 <-> lines1 = lines2) /\
  String.length (bufferLines lines1) =
    length lines1 + list_sum (map String.length lines1) /\
  bufferLines (lines1 ++ lines2) = bufferLines lines1 +:+ bufferLines lines2.
Proof.
  intros H1 H2. split; [|split; [|apply bufferLines_app]].
  - split; [|by intros ->].
    revert lines2 H2.
    induction H1 as [|line1 lines1 Hl1 _ IH]; intros lines2 H2;
      destruct H2 as [|line2 lines2 Hl2 H2]; try done.
    + rewrite bufferLines_cons. destruct line2; done.
    + rewrite bufferLines_cons. destruct line1; done.
    + rewrite !bufferLines_cons.
      intros [-> Hrest]%line_end_inj; [|done..].
      f_equal. by apply IH.
  - clear H1 H2. induction lines1 as [|line lines1 IH]; [done|].
    rewrite bufferLines_cons, length_append. simpl. rewrite IH. lia.
Qed.

End StdinBuffer.

(** Two manifests of three lines that differ in the last line. *)
Lemma bufferLines_lossless_witness :
  let lines1 := ["kind: Pod"; "metadata:"; "  name: web"] in
  let lines2 := ["kind: Pod"; "metadata:"; "  name: db"] in
  Forall no_newline lines1 /\
  Forall no_newline lines2 /\
  (bufferLines lines1 = bufferLines lines2 <-> lines1 = lines2) /\
  String.length (bufferLines lines1) =
    length lines1 + list_sum (map String.length lines1).
Proof.
  intros lines1 lines2.
  assert (H1 : Forall no_newline lines1)
    by (repeat constructor; discriminate).
  assert (H2 : Forall no_newline lines2)
    by (repeat constructor; discriminate).
  destruct (bufferLines_lossless lines1 lines2 H1 H2) as (Hinj & Hlen & _).
  split; [exact H1|]. split; [exact H2|]. split; [exact Hinj|exact Hlen].
Defined.

(** ** The entry point *)

Section EntryPoint.

Context {SchemaCache : Type} (env : @Env SchemaCache).
Implicit Types (w : @World SchemaCache) (d : Dispatch).

Lemma Run_status args w :
  (Run env args w).1 = Ret tt \/ (Run env args w).1 = Exit 1%Z.
Proof.
  rewrite Run_outcome. cbn [fst].
  destruct (Run_body_verdict env args w) as (evs & _ & Hres).
  destruct (Run_body env args w).1 as [[]|code]; auto.
  subst code. by right.
Qed.

(** [Execute] ends the process with status -1 exactly when the dispatch of
    the command line fails, after one line that shows the error and
    without the command having run; a run of the command never ends with
    that status, only with 0 or 1, and [Execute] adds nothing to what the
    run did. *)
Theorem Execute_status d w :
  (exit_status (Execute env d w).1 = (-1)%Z <->
   exists err, d = DispatchFails err) /\
  (forall err,
     d = DispatchFails err ->
     Execute env d w = (Exit (-1)%Z, emits [Log LError [err]] w)) /\
  (forall args,
     d = DispatchRuns args ->
     Execute env d w = Run env args w /\
     (exit_status (Execute env d w).1 = 0%Z \/
      exit_status (Execute env d w).1 = 1%Z)) /\
  (d = DispatchAnswers -> Execute env d w = (Ret tt, w)).
Proof.
  assert (Hrun : forall args,
            Execute env (DispatchRuns args) w = Run env args w).
  { intros args. unfold Execute, RootCmd_Execute, bind, ret.
    by destruct (Run env args w) as [[[]|code] w']. }
  split; [|split; [|split]].
  - split.
    + destruct d as [err| |args]; [by eexists|done|].
      rewrite Hrun. by destruct (Run_status args w) as [-> | ->].
    + by intros [err ->].
  - by intros err ->.
  - intros args ->. split; [apply Hrun|]. rewrite Hrun.
    destruct (Run_status args w) as [-> | ->]; auto.
  - by intros ->.
Qed.

End EntryPoint.

(** ** The properties above in the example world *)

(** A pipe on standard input, a dash, a file and two directories: only
    standard input is validated. *)
Lemma stdin_is_validated_once_witness :
  let env := Example.env (inl Example.pipe) ["a: 1"] ["d"; "e"] in
  let w := Example.start false in
  let evs := events_since w (Run env ["-"; "a.yaml"] w).2 in
  route env ["-"; "a.yaml"] = FromStdin /\
  validations evs = [("stdin", bufferLines ["a: 1"])] /\
  read_paths evs = [] /\
  walked evs = [].
Proof.
  intros env w evs.
  destruct (stdin_is_validated_once env ["-"; "a.yaml"] w eq_refl)
    as (Hvals & Hreads & Hwalks & _).
  split; [reflexivity|]. split; [exact Hvals|]. split; [exact Hreads|].
  exact Hwalks.
Defined.

(** The same pipe with and without arguments and directories. *)
Lemma stdin_run_ignores_files_witness :
  let env1 := Example.env (inl Example.pipe) ["a: 1"] ["d"; "missing"] in
  let env2 := Example.env (inl Example.pipe) ["a: 1"] [] in
  let w := Example.start false in
  same_stdin_side env1 env2 /\
  route env1 ["-"; "nope.yaml"] = FromStdin /\
  route env2 [] = FromStdin /\
  Run env1 ["-"; "nope.yaml"] w = Run env2 [] w.
Proof.
  intros env1 env2 w.
  assert (Hsame : same_stdin_side env1 env2) by (repeat split).
  split; [exact Hsame|]. split; [reflexivity|]. split; [reflexivity|].
  exact (stdin_run_ignores_files env1 env2 ["-"; "nope.yaml"] [] w
           Hsame eq_refl eq_refl).
Defined.

(** One file argument, and two different things on the pipe. *)
Lemma file_run_ignores_stdin_witness :
  let env1 := Example.env (inl Example.pipe) ["kind: Pod"] [] in
  let env2 := Example.env (inl Example.pipe) ["kind: Deployment"; "{"] [] in
  let w := Example.start false in
  route env1 ["a.yaml"] <> FromStdin /\
  Run env1 ["a.yaml"] w = Run env2 ["a.yaml"] w.
Proof.
  intros env1 env2 w.
  assert (Hroute : route env1 ["a.yaml"] <> FromStdin) by discriminate.
  split; [exact Hroute|].
  apply (file_run_ignores_stdin env1 env2 ["a.yaml"] w eq_refl eq_refl);
    [repeat split|exact Hroute].
Defined.

(** The failed probe on windows against a terminal on linux. *)
Lemma failed_probe_on_windows_is_a_terminal_witness :
  let env1 := windows_env ["e"] in
  let env2 := Example.env (inl Example.terminal) [] ["e"] in
  let w := Example.start false in
  GOOS env1 = "windows" /\
  Z.land (Mode Example.terminal) ModeCharDevice <> 0%Z /\
  Run env1 ["a.yaml"] w = Run env2 ["a.yaml"] w.
Proof.
  intros env1 env2 w.
  assert (Hchar : Z.land (Mode Example.terminal) ModeCharDevice <> 0%Z)
    by discriminate.
  split; [reflexivity|]. split; [exact Hchar|].
  apply (failed_probe_on_windows_is_a_terminal env1 env2 ["a.yaml"] w
           "GetFileType: The handle is invalid." Example.terminal
           eq_refl eq_refl eq_refl Hchar).
  repeat split.
Defined.

(** Three files, the second of which is not there, with the flag set. *)
Lemma flagged_run_halts_at_first_failure_witness :
  let env := Example.env (inl Example.terminal) [] [] in
  let w := Example.start true in
  let args := ["a.yaml"; "nope.yaml"; "bad.yaml"] in
  ExitOnError (config w) = true /\
  halted_at_failure (events_since w (Run env args w).2) /\
  (existsb stops (events_since w (Run env args w).2) = true ->
   (Run env args w).1 = Exit 1%Z).
Proof.
  intros env w args. split; [reflexivity|].
  exact (flagged_run_halts_at_first_failure env args w eq_refl).
Defined.

(** ** How far a run gets through the resolved list *)

Section ResolvedList.

Context {SchemaCache : Type} (env : @Env SchemaCache).
Implicit Types (w : @World SchemaCache) (args files : list string)
  (c : CacheRef) (evs : list Event).



End ResolvedList.


(** C5 as stated fails on an entry that is neither a directory nor a
    regular file: a symbolic link named [link.yaml] is kept by the
    callback, which asks only whether the entry is a directory. *)
Lemma claimed_collects_regular_refuted :
  ~ claimed_collects_regular "f/link.yaml" (symlink "link.yaml").
Proof.
  intros [Hkept _]. specialize (Hkept eq_refl).
  destruct Hkept as [Hregular _]. vm_compute in Hregular. discriminate.
Qed.
